(** * A shallow embedding of [src/core/Formatter.js]

    The layout engine of the SQL formatter: a single left-to-right pass over
    a token array that appends to an output buffer while it mutates the
    indentation counters, the inline-block detector, the pending prefix
    ([nextLinePrepend]) and the previously seen reserved word.

    JavaScript strings are modelled as [string]; a character is a code unit
    in the range 0..255. *)

From Stdlib Require Import Strings.String Strings.Ascii Lists.List Bool Arith NArith Lia.
Import ListNotations.
Open Scope list_scope.
Open Scope string_scope.

(** ** String primitives used by the formatter *)

Module Str.

Definition NL : ascii := "010"%char.
Definition SP : ascii := " "%char.
Definition TAB : ascii := "009"%char.

Definition nl : string := String NL EmptyString.
Definition sp : string := String SP EmptyString.

(** The characters matched by [\s] (and removed by [trim] and lodash's
    [trimEnd]) among the code units below 256: TAB, LF, VT, FF, CR, space
    and the no-break space. *)
Definition isWhitespace (c : ascii) : bool :=
  existsb (N.eqb (N_of_ascii c)) [9; 10; 11; 12; 13; 32; 160]%N.

(** Space or tab, the characters the no-trailing-whitespace property names. *)
Definition isBlank (c : ascii) : bool :=
  Ascii.eqb c SP || Ascii.eqb c TAB.

Definition isEmpty (s : string) : bool :=
  match s with EmptyString => true | String _ _ => false end.

(** lodash [trimEnd(string)]: drop the trailing whitespace characters. *)
Fixpoint trimEnd (s : string) : string :=
  match s with
  | EmptyString => EmptyString
  | String c s' =>
      match trimEnd s' with
      | EmptyString => if isWhitespace c then EmptyString else String c EmptyString
      | String d t => String c (String d t)
      end
  end.

Fixpoint trimStart (s : string) : string :=
  match s with
  | EmptyString => EmptyString
  | String c s' => if isWhitespace c then trimStart s' else s
  end.

(** [String.prototype.trim]. *)
Definition trim (s : string) : string := trimEnd (trimStart s).

(** [s.split(c)] for a one-character separator. *)
Fixpoint split (c : ascii) (s : string) : list string :=
  match s with
  | EmptyString => [EmptyString]
  | String d s' =>
      if Ascii.eqb d c then EmptyString :: split c s'
      else match split c s' with
           | l :: ls => String d l :: ls
           | [] => [String d EmptyString]
           end
  end.

(** [lines[lines.length - 1]] of [query.split(NL)]. *)
Definition lastLine (query : string) : string :=
  last (split NL query) EmptyString.

Fixpoint drop (n : nat) (s : string) : string :=
  match n, s with
  | 0, _ => s
  | S n', String _ s' => drop n' s'
  | S _, EmptyString => EmptyString
  end.

(** [s.replace(pat, rep)] with a string pattern: only the first occurrence
    is replaced. *)
Fixpoint replaceFirst (pat rep s : string) : string :=
  if prefix pat s then rep ++ drop (String.length pat) s
  else match s with
       | EmptyString => EmptyString
       | String c s' => String c (replaceFirst pat rep s')
       end.

(** The text that [replace] puts in for one match when the replacement is a
    string and the pattern has no capture group: in [rep] a dollar sign
    followed by a dollar sign stands for one dollar sign, followed by an
    ampersand for the matched text, followed by a backquote for the part of
    the subject before the match and followed by a quote for the part after
    it; every other character, a dollar sign in front of a digit included,
    stands for itself. *)
Fixpoint substitution (rep matched before after : string) : string :=
  match rep with
  | EmptyString => EmptyString
  | String c r =>
      if Ascii.eqb c "$" then
        match r with
        | String d r' =>
            if Ascii.eqb d "$" then String "$" (substitution r' matched before after)
            else if Ascii.eqb d "&" then matched ++ substitution r' matched before after
            else if Ascii.eqb d "`" then before ++ substitution r' matched before after
            else if Ascii.eqb d "'" then after ++ substitution r' matched before after
            else String c (substitution r matched before after)
        | EmptyString => String c EmptyString
        end
      else String c (substitution r matched before after)
  end.

(** [replace(/\n/g, rep)] on the rest [s] of a subject whose part already
    passed is [before]. *)
Fixpoint replaceNewlinesFrom (rep before s : string) : string :=
  match s with
  | EmptyString => EmptyString
  | String c s' =>
      if Ascii.eqb c NL
      then substitution rep nl before s'
           ++ replaceNewlinesFrom rep (before ++ String c EmptyString) s'
      else String c (replaceNewlinesFrom rep (before ++ String c EmptyString) s')
  end.

(** [s.replace(/\n/g, rep)]. *)
Definition replaceNewlines (rep s : string) : string :=
  replaceNewlinesFrom rep EmptyString s.

(** [s.replace(/\s+/g, " ")]: every maximal run of whitespace becomes one
    space. *)
Fixpoint collapseWhitespace (s : string) : string :=
  match s with
  | EmptyString => EmptyString
  | String c s' =>
      if isWhitespace c then
        match s' with
        | String d _ => if isWhitespace d then collapseWhitespace s'
                        else String SP (collapseWhitespace s')
        | EmptyString => String SP EmptyString
        end
      else String c (collapseWhitespace s')
  end.

Fixpoint repeat (s : string) (n : nat) : string :=
  match n with
  | 0 => EmptyString
  | S n' => s ++ repeat s n'
  end.

Definition inRange (lo hi : N) (c : ascii) : bool :=
  (lo <=? N_of_ascii c)%N && (N_of_ascii c <=? hi)%N.

(** Simple case mapping of one code unit: a-z and the Latin-1 lower-case
    letters move down by 32. *)
Definition upperChar (c : ascii) : ascii :=
  if inRange 97 122 c || (inRange 224 254 c && negb (N.eqb (N_of_ascii c) 247))
  then ascii_of_N (N_of_ascii c - 32)
  else c.

(** [s.toUpperCase()].  The sharp s (223) becomes SS.  The micro sign (181)
    and y-diaeresis (255) have upper-case forms above 255; they are left as
    they are, which agrees with JavaScript on every comparison against an
    ASCII string. *)
Fixpoint toUpperCase (s : string) : string :=
  match s with
  | EmptyString => EmptyString
  | String c s' =>
      if N.eqb (N_of_ascii c) 223 then String "S" (String "S" (toUpperCase s'))
      else String (upperChar c) (toUpperCase s')
  end.

(** Canonicalisation of a character under the [i] flag of a regular
    expression: the upper-case form when it is a single code unit, except
    that a non-ASCII character is never mapped to an ASCII one.  Below 256
    this is [upperChar] (the sharp s has a two-letter upper-case form and
    stays as it is). *)
Definition canonicalize (c : ascii) : ascii := upperChar c.

Fixpoint mapChars (f : ascii -> ascii) (s : string) : string :=
  match s with
  | EmptyString => EmptyString
  | String c s' => String (f c) (mapChars f s')
  end.

(** [(/^LIMIT$/i).test(s)]. *)
Definition matchesLIMIT (s : string) : bool :=
  String.eqb (mapChars canonicalize s) "LIMIT".

(** Last character, when there is one. *)
Fixpoint lastChar (s : string) : option ascii :=
  match s with
  | EmptyString => None
  | String c EmptyString => Some c
  | String _ s' => lastChar s'
  end.

Definition endsWithWhitespace (s : string) : bool :=
  match lastChar s with Some c => isWhitespace c | None => false end.

Definition endsWithBlank (s : string) : bool :=
  match lastChar s with Some c => isBlank c | None => false end.

Definition startsWithWhitespace (s : string) : bool :=
  match s with String c _ => isWhitespace c | EmptyString => false end.

Fixpoint hasNewline (s : string) : bool :=
  match s with
  | EmptyString => false
  | String c s' => Ascii.eqb c NL || hasNewline s'
  end.

End Str.

Import Str.

(** ** Tokens *)

(** Modelled from the spec: [tokenTypes.js] is not part of the sources.  The
    spec lists the closed enumeration of token types; the formatter names the
    first ten, the last two stand for plain punctuation and for identifiers
    and literals. *)
Inductive tokenType : Type :=
  | WHITESPACE
  | LINE_COMMENT
  | BLOCK_COMMENT
  | RESERVED_TOPLEVEL
  | RESERVED_NEWLINE
  | RESERVED_NEWLINE_WITH_INDENT
  | RESERVED
  | OPEN_PAREN
  | CLOSE_PAREN
  | PLACEHOLDER
  | PUNCTUATION
  | OTHER.

Definition tokenType_eqb (a b : tokenType) : bool :=
  match a, b with
  | WHITESPACE, WHITESPACE | LINE_COMMENT, LINE_COMMENT
  | BLOCK_COMMENT, BLOCK_COMMENT | RESERVED_TOPLEVEL, RESERVED_TOPLEVEL
  | RESERVED_NEWLINE, RESERVED_NEWLINE
  | RESERVED_NEWLINE_WITH_INDENT, RESERVED_NEWLINE_WITH_INDENT
  | RESERVED, RESERVED | OPEN_PAREN, OPEN_PAREN | CLOSE_PAREN, CLOSE_PAREN
  | PLACEHOLDER, PLACEHOLDER | PUNCTUATION, PUNCTUATION | OTHER, OTHER => true
  | _, _ => false
  end.

(** A token object [{ type, value }]. *)
Record Token : Type := mkToken { type : tokenType; value : string }.

(** ** Indentation *)

(** Modelled from the spec: [Indentation.js] is not part of the sources.  Four
    independent counters, each moved by one per call and never below zero;
    the indent text is the indent unit repeated once per counted level; the
    unit defaults to two spaces. *)
Record Indentation : Type := mkIndentation {
  indent : string;
  topLevel : nat;
  blockLevel : nat;
  newLineWithIndentLevel : nat;
  maxCharacterLevel : nat
}.

Definition new_Indentation (indent : option string) : Indentation :=
  mkIndentation (match indent with Some s => s | None => "  " end) 0 0 0 0.

Definition levels (i : Indentation) : nat :=
  topLevel i + blockLevel i + newLineWithIndentLevel i + maxCharacterLevel i.

Definition getIndent (i : Indentation) : string :=
  Str.repeat (indent i) (levels i).

Definition increaseToplevel (i : Indentation) : Indentation :=
  mkIndentation (indent i) (S (topLevel i)) (blockLevel i)
    (newLineWithIndentLevel i) (maxCharacterLevel i).

Definition decreaseTopLevel (i : Indentation) : Indentation :=
  mkIndentation (indent i) (pred (topLevel i)) (blockLevel i)
    (newLineWithIndentLevel i) (maxCharacterLevel i).

Definition increaseBlockLevel (i : Indentation) : Indentation :=
  mkIndentation (indent i) (topLevel i) (S (blockLevel i))
    (newLineWithIndentLevel i) (maxCharacterLevel i).

Definition decreaseBlockLevel (i : Indentation) : Indentation :=
  mkIndentation (indent i) (topLevel i) (pred (blockLevel i))
    (newLineWithIndentLevel i) (maxCharacterLevel i).

Definition increaseNewLineWithIndentLevel (i : Indentation) : Indentation :=
  mkIndentation (indent i) (topLevel i) (blockLevel i)
    (S (newLineWithIndentLevel i)) (maxCharacterLevel i).

Definition decreaseNewLineWithIndentLevel (i : Indentation) : Indentation :=
  mkIndentation (indent i) (topLevel i) (blockLevel i)
    (pred (newLineWithIndentLevel i)) (maxCharacterLevel i).

Definition increaseMaxCharacterLevel (i : Indentation) : Indentation :=
  mkIndentation (indent i) (topLevel i) (blockLevel i)
    (newLineWithIndentLevel i) (S (maxCharacterLevel i)).

Definition decreaseAllMaxCharacterLevel (i : Indentation) : Indentation :=
  mkIndentation (indent i) (topLevel i) (blockLevel i)
    (newLineWithIndentLevel i) 0.

(** ** The collaborators of the formatter *)

(** [InlineBlock.js] is not part of the sources: the formatter only calls
    [beginIfPossible], [isActive] and [end] on an object it owns, so the
    detector is an interface here. *)
Class InlineBlockDetector : Type := {
  InlineBlock : Type;
  new_InlineBlock : InlineBlock;
  beginIfPossible : list Token -> nat -> InlineBlock -> InlineBlock;
  isActive : InlineBlock -> bool;
  end_ : InlineBlock -> InlineBlock
}.

(** [Params.js] is not part of the sources: the formatter builds the
    resolver from [cfg.params] and calls [get] once per placeholder token. *)
Class PlaceholderResolver : Type := {
  Params : Type;
  Params_get : Params -> Token -> string
}.

(** ** The formatter *)

Section Formatter.

Context {IB : InlineBlockDetector} {PR : PlaceholderResolver}.

(** The configuration object [cfg]. *)
Record Cfg : Type := mkCfg {
  cfg_indent : option string;
  cfg_params : Params;
  cfg_maxCharacterPerLine : option nat
}.

(** The fields of a [Formatter] instance.  [previousReservedWord] starts as
    the empty object, which has no [value]: [None]. *)
Record Formatter : Type := mkFormatter {
  cfg : Cfg;
  indentation : Indentation;
  inlineBlock : InlineBlock;
  params : Params;
  tokenizer : string -> list Token;
  previousReservedWord : option Token;
  nextLinePrepend : string;
  maxCharacterPerLine : nat
}.

(** [constructor(cfg, tokenizer)]. *)
Definition new_Formatter (c : Cfg) (tokenizer : string -> list Token) : Formatter :=
  mkFormatter c
    (new_Indentation (cfg_indent c))
    new_InlineBlock
    (cfg_params c)
    tokenizer
    None
    EmptyString
    (match cfg_maxCharacterPerLine c with Some n => n | None => 0 end).

Definition set_indentation (f : Formatter) (i : Indentation) : Formatter :=
  mkFormatter (cfg f) i (inlineBlock f) (params f) (tokenizer f)
    (previousReservedWord f) (nextLinePrepend f) (maxCharacterPerLine f).

Definition set_inlineBlock (f : Formatter) (b : InlineBlock) : Formatter :=
  mkFormatter (cfg f) (indentation f) b (params f) (tokenizer f)
    (previousReservedWord f) (nextLinePrepend f) (maxCharacterPerLine f).

Definition set_previousReservedWord (f : Formatter) (t : Token) : Formatter :=
  mkFormatter (cfg f) (indentation f) (inlineBlock f) (params f) (tokenizer f)
    (Some t) (nextLinePrepend f) (maxCharacterPerLine f).

Definition set_nextLinePrepend (f : Formatter) (s : string) : Formatter :=
  mkFormatter (cfg f) (indentation f) (inlineBlock f) (params f) (tokenizer f)
    (previousReservedWord f) s (maxCharacterPerLine f).

(** A method that updates [this] and returns a string. *)
Definition Result : Type := (Formatter * string)%type.

Definition addNewline (f : Formatter) (query : string) : string :=
  trimEnd query ++ nl ++ getIndent (indentation f).

Definition dropMaxCharacterIndent (f : Formatter) : Formatter :=
  set_indentation f (decreaseAllMaxCharacterLevel (indentation f)).

Definition formatWithSpaceAfter (token : Token) (query : string) : string :=
  trimEnd query ++ value token ++ " ".

Definition formatWithoutSpaces (token : Token) (query : string) : string :=
  trimEnd query ++ value token.

Definition formatWithSpaces (token : Token) (query : string) : string :=
  query ++ value token ++ " ".

Definition equalizeWhitespace (s : string) : string := collapseWhitespace s.

(** The text a line comment is rewritten to. *)
Definition lineCommentText (v : string) : string :=
  replaceFirst nl EmptyString (replaceFirst "--" "/*" v) ++ " */".

Definition formatLineComment (token : Token) (query : string) (f : Formatter) : Result :=
  let f := dropMaxCharacterIndent f in
  (f, addNewline f (query ++ lineCommentText (value token))).

(** [tokens[index]]; the callback of [forEach] only sees valid indices. *)
Definition tokenAt (tokens : list Token) (index : nat) : option Token :=
  nth_error tokens index.

(** [tokens[index].value] at an index of the array, the only indices the
    callback passes on.  Outside the array JavaScript throws a TypeError;
    the empty string stands in for it here, and a statement that calls a
    function of the formatter at an index of its own choice takes
    [tokenAt tokens index = Some _] as a hypothesis. *)
Definition valueAt (tokens : list Token) (index : nat) : string :=
  match tokenAt tokens index with Some t => value t | None => EmptyString end.

Definition checkMaxCharacter (tokens : list Token) (index : nat) (query : string)
    (f : Formatter) : Result :=
  let lastLine := lastLine query in
  if negb (Nat.eqb (maxCharacterPerLine f) 0) &&
     Nat.ltb (maxCharacterPerLine f)
       (String.length lastLine + String.length (valueAt tokens index))
  then
    let f := set_indentation f (increaseMaxCharacterLevel (indentation f)) in
    (f, addNewline f query)
  else (f, query).

Definition indentComment (f : Formatter) (comment : string) : string :=
  replaceNewlines (nl ++ getIndent (indentation f)) comment.

Definition formatBlockComment (token : Token) (query : string) (f : Formatter) : Result :=
  (f, addNewline f (addNewline f query ++ indentComment f (value token))).

Definition formatToplevelReservedWord (token : Token) (query : string)
    (f : Formatter) : Result :=
  let f := dropMaxCharacterIndent f in
  let f := set_indentation f (decreaseNewLineWithIndentLevel (indentation f)) in
  let f := set_indentation f (decreaseTopLevel (indentation f)) in
  let query := addNewline f query in
  let f := set_indentation f (increaseToplevel (indentation f)) in
  let query := query ++ equalizeWhitespace (value token) in
  (f, addNewline f query).

Definition dropNewLineWithIndentLevel : list string :=
  [ "CROSS APPLY"; "CROSS JOIN"; "INNER JOIN"; "JOIN"; "LEFT JOIN"; "LEFT OUTER JOIN";
    "OUTER APPLY"; "OUTER JOIN"; "RIGHT JOIN"; "RIGHT OUTER JOIN" ].

Definition formatNewlineReservedWord (token : Token) (query : string)
    (f : Formatter) : Result :=
  let f := dropMaxCharacterIndent f in
  let f :=
    if existsb (String.eqb (toUpperCase (value token))) dropNewLineWithIndentLevel
    then set_indentation f (decreaseNewLineWithIndentLevel (indentation f))
    else f in
  (f, addNewline f query ++ equalizeWhitespace (value token) ++ " ").

Definition formatNewlineReservedWordWithIndent (token : Token) (query : string)
    (f : Formatter) : Result :=
  let f := dropMaxCharacterIndent f in
  let f := set_indentation f (increaseNewLineWithIndentLevel (indentation f)) in
  let query := addNewline f query in
  (f, query ++ equalizeWhitespace (value token) ++ " ").

(** [tokens[index - 1]]: undefined at index 0. *)
Definition previousTokenAt (tokens : list Token) (index : nat) : option Token :=
  match index with
  | 0 => None
  | S i => tokenAt tokens i
  end.

Definition formatOpeningParentheses (tokens : list Token) (index : nat)
    (query : string) (f : Formatter) : Result :=
  let f := dropMaxCharacterIndent f in
  let query :=
    match previousTokenAt tokens index with
    | Some previousToken =>
        if negb (tokenType_eqb (type previousToken) WHITESPACE) &&
           negb (tokenType_eqb (type previousToken) OPEN_PAREN)
        then trimEnd query else query
    | None => query
    end in
  let f := set_inlineBlock f (beginIfPossible tokens index (inlineBlock f)) in
  if negb (isActive (inlineBlock f)) then
    let query := addNewline f query in
    let query := query ++ valueAt tokens index in
    let f := set_indentation f (increaseBlockLevel (indentation f)) in
    (f, addNewline f query)
  else
    (f, query ++ valueAt tokens index).

Definition formatClosingParentheses (token : Token) (query : string)
    (f : Formatter) : Result :=
  if isActive (inlineBlock f) then
    let f := set_inlineBlock f (end_ (inlineBlock f)) in
    (f, formatWithSpaceAfter token query)
  else
    let f := set_indentation f (decreaseBlockLevel (indentation f)) in
    (f, formatWithSpaces token (addNewline f query)).

Definition formatPlaceholder (token : Token) (query : string) (f : Formatter) : string :=
  query ++ Params_get (params f) token ++ " ".

(** [(/^LIMIT$/i).test(this.previousReservedWord.value)]; the value of the
    empty object is undefined, which the test turns into a string that does
    not match. *)
Definition previousIsLimit (f : Formatter) : bool :=
  match previousReservedWord f with
  | Some t => matchesLIMIT (value t)
  | None => false
  end.

Definition formatComma (token : Token) (query : string) (f : Formatter) : Result :=
  let f := dropMaxCharacterIndent f in
  if isActive (inlineBlock f) || previousIsLimit f then
    (f, trimEnd query ++ value token ++ " ")
  else
    let query := trimEnd query ++ " " in
    let f := set_nextLinePrepend f (value token) in
    (f, addNewline f query).

(** Array update [tokens[index] = t]; the index is always in range here. *)
Fixpoint setAt (index : nat) (t : Token) (tokens : list Token) : list Token :=
  match tokens, index with
  | [], _ => []
  | _ :: rest, 0 => t :: rest
  | x :: rest, S i => x :: setAt i t rest
  end.

Definition isTrivia (ty : tokenType) : bool :=
  match ty with
  | LINE_COMMENT | BLOCK_COMMENT | WHITESPACE => true
  | _ => false
  end.

(** The first statement of the callback: a pending prefix is prepended to
    the value of the token object itself, and cleared. *)
Definition splices (f : Formatter) (token : Token) : bool :=
  negb (Nat.eqb (String.length (nextLinePrepend f)) 0) && negb (isTrivia (type token)).

Definition spliced (f : Formatter) (token : Token) : Token :=
  if splices f token
  then mkToken (type token) (nextLinePrepend f ++ value token)
  else token.

Definition afterSplice (f : Formatter) (token : Token) : Formatter :=
  if splices f token then set_nextLinePrepend f EmptyString else f.

(** The branches of the callback that look at the value of a token whose
    type none of the earlier branches names. *)
Definition formatByValue (tokens : list Token) (index : nat) (token : Token)
    (query : string) (f : Formatter) : Result :=
  if String.eqb (value token) "," then formatComma token query f
  else if String.eqb (value token) ":" then (f, formatWithSpaceAfter token query)
  else if String.eqb (value token) "." then (f, formatWithoutSpaces token query)
  else if String.eqb (value token) ";" then (f, formatWithoutSpaces token query ++ nl ++ nl)
  else
    let '(f, query) := checkMaxCharacter tokens index query f in
    (f, formatWithSpaces token query).

(** The branches of the callback, on the token after the splice. *)
Definition dispatch (tokens : list Token) (index : nat) (token : Token)
    (query : string) (f : Formatter) : Result :=
  match type token with
  | WHITESPACE => (f, query)
  | LINE_COMMENT => formatLineComment token query f
  | BLOCK_COMMENT => formatBlockComment token query f
  | RESERVED_TOPLEVEL =>
      let '(f, query) := formatToplevelReservedWord token query f in
      (set_previousReservedWord f token, query)
  | RESERVED_NEWLINE =>
      let '(f, query) := formatNewlineReservedWord token query f in
      (set_previousReservedWord f token, query)
  | RESERVED_NEWLINE_WITH_INDENT =>
      let '(f, query) := formatNewlineReservedWordWithIndent token query f in
      (set_previousReservedWord f token, query)
  | RESERVED =>
      let '(f, query) := checkMaxCharacter tokens index query f in
      (set_previousReservedWord f token, formatWithSpaces token query)
  | OPEN_PAREN => formatOpeningParentheses tokens index query f
  | CLOSE_PAREN => formatClosingParentheses token query f
  | PLACEHOLDER => (f, formatPlaceholder token query f)
  | PUNCTUATION | OTHER => formatByValue tokens index token query f
  end.

(** One call of the [forEach] callback: the token array (whose element at
    [index] may be overwritten), [this] and [formattedQuery] before and
    after. *)
Definition callback (tokens : list Token) (index : nat) (token : Token)
    (st : Result) : list Token * Result :=
  let '(f, query) := st in
  let token' := spliced f token in
  let tokens := if splices f token then setAt index token' tokens else tokens in
  let f := afterSplice f token in
  (tokens, dispatch tokens index token' query f).

(** [tokens.forEach(callback)] from [index] on, for [n] more elements. *)
Fixpoint forEachFrom (n index : nat) (tokens : list Token) (st : Result)
    : list Token * Result :=
  match n with
  | 0 => (tokens, st)
  | S n' =>
      match tokenAt tokens index with
      | Some token =>
          let '(tokens, st) := callback tokens index token st in
          forEachFrom n' (S index) tokens st
      | None => (tokens, st)
      end
  end.

(** [getFormattedQueryFromTokens(tokens)]: the token array as the call
    leaves it, [this] as the call leaves it, and the returned string. *)
Definition getFormattedQueryFromTokens (tokens : list Token) (f : Formatter)
    : list Token * Result :=
  forEachFrom (List.length tokens) 0 tokens (f, EmptyString).

(** [format(query)]: [this] after the call and the returned string. *)
Definition format (f : Formatter) (query : string) : Result :=
  let tokens := tokenizer f query in
  let '(_, (f, formattedQuery)) := getFormattedQueryFromTokens tokens f in
  (f, trim formattedQuery).

End Formatter.

(** ** Instances of the collaborators *)

Module SpecModel.

(** Modelled from the spec: [InlineBlock.js] is not part of the sources.  A
    boolean flag.  [beginIfPossible] scans forward from the token after the
    opening parenthesis to the matching closing parenthesis, counting
    nested parentheses, and activates inline mode when the region holds no
    top-level or newline reserved keyword and no comment and its rendered
    length, parentheses included, is at most the threshold; without a
    matching close it does not activate.  [end] deactivates. *)
Definition INLINE_MAX_LENGTH : nat := 50.

Fixpoint scanRegion (depth len : nat) (tokens : list Token) : bool :=
  match tokens with
  | [] => false
  | t :: rest =>
      match type t with
      | WHITESPACE => scanRegion depth len rest
      | RESERVED_TOPLEVEL | RESERVED_NEWLINE | LINE_COMMENT | BLOCK_COMMENT => false
      | OPEN_PAREN => scanRegion (S depth) (len + String.length (value t)) rest
      | CLOSE_PAREN =>
          match depth with
          | 0 => Nat.leb (len + String.length (value t)) INLINE_MAX_LENGTH
          | S d => scanRegion d (len + String.length (value t)) rest
          end
      | _ => scanRegion depth (len + String.length (value t)) rest
      end
  end.

Definition isInlineBlock (tokens : list Token) (index : nat) : bool :=
  match skipn index tokens with
  | [] => false
  | open :: rest => scanRegion 0 (String.length (value open)) rest
  end.

#[export] Instance inlineBlock : InlineBlockDetector := {
  InlineBlock := bool;
  new_InlineBlock := false;
  beginIfPossible tokens index active := if isInlineBlock tokens index then true else active;
  isActive active := active;
  end_ _ := false
}.

(** Modelled from the spec: [Params.js] is not part of the sources.  A
    stateless lookup: a placeholder that is bound to a substitution text
    gets that text, an unbound one keeps its literal text.  [Some v] binds
    the placeholder of the query to [v]; [None] binds nothing. *)
#[export] Instance params : PlaceholderResolver := {
  Params := option string;
  Params_get p token := match p with Some v => v | None => value token end
}.

(** Modelled from the spec: the tokenizer is handed to the constructor and
    is not part of the sources.  A small tokenizer that cuts the input into
    whitespace runs, line comments, block comments, parentheses, the
    placeholder [?], one-character punctuation and words, and classifies
    the words of three short keyword tables; the values of its tokens
    concatenate to the input. *)
Fixpoint span (p : ascii -> bool) (s : string) : string * string :=
  match s with
  | EmptyString => (EmptyString, EmptyString)
  | String c s' =>
      if p c then let '(a, b) := span p s' in (String c a, b)
      else (EmptyString, s)
  end.

(** The text up to and including the first line feed. *)
Fixpoint spanLine (s : string) : string * string :=
  match s with
  | EmptyString => (EmptyString, EmptyString)
  | String c s' =>
      if Ascii.eqb c NL then (String c EmptyString, s')
      else let '(a, b) := spanLine s' in (String c a, b)
  end.

(** The text up to and including the first [*/]. *)
Fixpoint spanBlock (s : string) : string * string :=
  match s with
  | EmptyString => (EmptyString, EmptyString)
  | String c s' =>
      if prefix "*/" s then ("*/", drop 2 s)
      else let '(a, b) := spanBlock s' in (String c a, b)
  end.

Definition isSpecial (c : ascii) : bool :=
  existsb (Ascii.eqb c) ["("; ")"; ","; ";"; ":"; "."; "?"; "-"; "/"]%char.

Definition isWordChar (c : ascii) : bool :=
  negb (isWhitespace c) && negb (isSpecial c).

Definition classify (w : string) : tokenType :=
  let u := toUpperCase w in
  if existsb (String.eqb u) ["SELECT"; "FROM"; "WHERE"; "LIMIT"] then RESERVED_TOPLEVEL
  else if existsb (String.eqb u) ["AND"; "OR"; "JOIN"] then RESERVED_NEWLINE
  else if existsb (String.eqb u) ["ON"] then RESERVED_NEWLINE_WITH_INDENT
  else if existsb (String.eqb u) ["AS"; "IN"; "IS"; "NOT"; "NULL"] then RESERVED
  else OTHER.

Definition one (c : ascii) : string := String c EmptyString.

Fixpoint tokenizeFuel (fuel : nat) (s : string) : list Token :=
  match fuel, s with
  | 0, _ | _, EmptyString => []
  | S fuel, String c s' =>
      if isWhitespace c then
        let '(w, r) := span isWhitespace s in
        mkToken WHITESPACE w :: tokenizeFuel fuel r
      else if prefix "--" s then
        let '(l, r) := spanLine s in
        mkToken LINE_COMMENT l :: tokenizeFuel fuel r
      else if prefix "/*" s then
        let '(b, r) := spanBlock (drop 2 s) in
        mkToken BLOCK_COMMENT ("/*" ++ b) :: tokenizeFuel fuel r
      else if Ascii.eqb c "(" then mkToken OPEN_PAREN (one c) :: tokenizeFuel fuel s'
      else if Ascii.eqb c ")" then mkToken CLOSE_PAREN (one c) :: tokenizeFuel fuel s'
      else if Ascii.eqb c "?" then mkToken PLACEHOLDER (one c) :: tokenizeFuel fuel s'
      else if existsb (Ascii.eqb c) [","; ";"; ":"; "."]%char then
        mkToken PUNCTUATION (one c) :: tokenizeFuel fuel s'
      else if isSpecial c then mkToken OTHER (one c) :: tokenizeFuel fuel s'
      else
        let '(w, r) := span isWordChar s in
        mkToken (classify w) w :: tokenizeFuel fuel r
  end.

(** Every token takes at least one character, so the length of the input
    is fuel enough. *)
Definition tokenize (s : string) : list Token :=
  tokenizeFuel (String.length s) s.

(** The values of a token sequence, concatenated. *)
Definition concatValues (tokens : list Token) : string :=
  fold_right (fun t acc => value t ++ acc) EmptyString tokens.

(** A formatter over these collaborators: indent unit and parameters as
    given, no maximum line length. *)
Definition formatter (indent : option string) (p : option string) : Formatter :=
  new_Formatter (mkCfg indent p None) tokenize.

(** The same with a maximum line length. *)
Definition formatterMax (max : nat) : Formatter :=
  new_Formatter (mkCfg None None (Some max)) tokenize.

(** The string a fresh formatter returns for [query]. *)
Definition formatString (query : string) : string :=
  snd (format (formatter None None) query).

End SpecModel.

(** ** Observations on strings *)

Module StrSpec.

(** The string begins with a line feed. *)
Definition startsWithNL (s : string) : bool :=
  match s with String c _ => Ascii.eqb c NL | EmptyString => false end.

(** No space or tab stands directly before a line feed. *)
Fixpoint tidy (s : string) : bool :=
  match s with
  | EmptyString => true
  | String c s' => negb (isBlank c && startsWithNL s') && tidy s'
  end.

(** No line of [s] ends with a space or a tab. *)
Definition noTrailingBlank (s : string) : bool :=
  forallb (fun l => negb (endsWithBlank l)) (split NL s).

(** The strings of [vs] occur in [s] one after the other, without overlap. *)
Fixpoint occursInOrder (vs : list string) (s : string) : Prop :=
  match vs with
  | [] => True
  | v :: vs' => exists pre rest, s = pre ++ v ++ rest /\ occursInOrder vs' rest
  end.

(** Texts that trimming the buffer cannot cut into. *)
Definition solidTexts (vs : list string) : Prop :=
  Forall (fun v => endsWithWhitespace v = false) vs.

(** The character occurs in the string. *)
Fixpoint hasChar (c : ascii) (s : string) : bool :=
  match s with
  | EmptyString => false
  | String d s' => Ascii.eqb d c || hasChar c s'
  end.

End StrSpec.

Import StrSpec.

(** ** The vocabulary of the properties *)

Section Vocabulary.

Context {IB : InlineBlockDetector} {PR : PlaceholderResolver}.

(** The counters on the line of a top-level keyword. *)
Definition atToplevelKeyword (i : Indentation) : Indentation :=
  mkIndentation (indent i) (pred (topLevel i)) (blockLevel i)
    (pred (newLineWithIndentLevel i)) 0.

(** The counters on the lines below a top-level keyword. *)
Definition afterToplevelKeyword (i : Indentation) : Indentation :=
  mkIndentation (indent i) (S (pred (topLevel i))) (blockLevel i)
    (pred (newLineWithIndentLevel i)) 0.

(** A value that none of the four punctuation branches takes. *)
Definition isPlainValue (v : string) : bool :=
  negb (String.eqb v "," || String.eqb v ":" || String.eqb v "." || String.eqb v ";").

(** The token takes the branch of the other reserved keywords or the last
    branch of the callback. *)
Definition checksMaxCharacter (token : Token) : bool :=
  match type token with
  | RESERVED => true
  | PUNCTUATION | OTHER => isPlainValue (value token)
  | _ => false
  end.

(** The tokens the callback hands to [formatComma]: a type no earlier
    branch takes and, after the splice, the value [","]. *)
Definition isComma (token : Token) : bool :=
  match type token with
  | PUNCTUATION | OTHER => String.eqb (value token) ","
  | _ => false
  end.

(** The tokens that reach the semicolon branch of the callback. *)
Definition isSemicolon (token : Token) : bool :=
  match type token with
  | PUNCTUATION | OTHER => String.eqb (value token) ";"
  | _ => false
  end.

(** The four kinds of reserved keyword. *)
Definition isReservedType (ty : tokenType) : bool :=
  match ty with
  | RESERVED_TOPLEVEL | RESERVED_NEWLINE | RESERVED_NEWLINE_WITH_INDENT | RESERVED => true
  | _ => false
  end.

(** The loop seen from one position: the tokens already visited, as the
    callbacks left them, and the tokens still to come.  The array is
    [done ++ rest] and the index is the length of [done]. *)
Fixpoint run (done rest : list Token) (st : Result) : list Token * Result :=
  match rest with
  | [] => (done, st)
  | token :: rest' =>
      let token' := spliced (fst st) token in
      run (done ++ [token']) rest'
        (dispatch (done ++ token' :: rest') (List.length done) token' (snd st)
           (afterSplice (fst st) token))
  end.

(** How a token object can differ after the call: same type, and a value
    that is the old one behind a prefix [p]. *)
Definition prefixedBy (p : string) (t t' : Token) : Prop :=
  type t' = type t /\ value t' = p ++ value t.

(** A token after the call: trivia as before, anything else behind nothing,
    behind a comma, or behind the prefix [p0]. *)
Definition touched (p0 : string) (t t' : Token) : Prop :=
  (isTrivia (type t) = true -> t' = t) /\
  (prefixedBy EmptyString t t' \/ prefixedBy "," t t' \/ prefixedBy p0 t t').

(** The pending prefix is empty, a comma, or [p0]. *)
Definition pendingIn (p0 : string) (f : Formatter) : Prop :=
  nextLinePrepend f = EmptyString \/ nextLinePrepend f = "," \/ nextLinePrepend f = p0.

(** The fields no method assigns after the constructor, and the indent
    unit. *)
Definition sameSetup (f g : Formatter) : Prop :=
  cfg f = cfg g /\ params f = params g /\ tokenizer f = tokenizer g /\
  maxCharacterPerLine f = maxCharacterPerLine g /\
  indent (indentation f) = indent (indentation g).

(** Two instances that differ at most in the previous reserved word, and
    agree on whether it matches LIMIT. *)
Definition sameButPrevious (f g : Formatter) : Prop :=
  cfg f = cfg g /\ indentation f = indentation g /\
  inlineBlock f = inlineBlock g /\ params f = params g /\
  tokenizer f = tokenizer g /\ nextLinePrepend f = nextLinePrepend g /\
  maxCharacterPerLine f = maxCharacterPerLine g /\
  previousIsLimit f = previousIsLimit g.

(** All four counters are zero. *)
Definition countersAtZero (i : Indentation) : Prop :=
  topLevel i = 0 /\ blockLevel i = 0 /\
  newLineWithIndentLevel i = 0 /\ maxCharacterLevel i = 0.

(** The text of a token as the engine appends it: the rewritten line
    comment, the whitespace-collapsed keyword, the resolver's answer, and
    otherwise the value (for a block comment without line feed, too, which
    [indentComment] leaves as it is). *)
Definition emittedText (ps : Params) (t : Token) : string :=
  match type t with
  | WHITESPACE => EmptyString
  | LINE_COMMENT => lineCommentText (value t)
  | RESERVED_TOPLEVEL | RESERVED_NEWLINE | RESERVED_NEWLINE_WITH_INDENT =>
      equalizeWhitespace (value t)
  | PLACEHOLDER => Params_get ps t
  | _ => value t
  end.

(** The token a pending comma turns [t] into. *)
Definition afterComma (t : Token) : Token := mkToken (type t) ("," ++ value t).

(** Neither alone nor behind a pending comma does the token put a line
    feed into the output. *)
Definition oneLine (ps : Params) (t : Token) : bool :=
  negb (hasNewline (emittedText ps t)) &&
  negb (hasNewline (emittedText ps (afterComma t))).

(** The text by which a token is found in the output: its value; for the
    three line-breaking keyword kinds the value with whitespace runs
    collapsed; for a line comment the rewritten comment; nothing for
    whitespace, for placeholders and for block comments with a line feed. *)
Definition expectedText (t : Token) : list string :=
  match type t with
  | WHITESPACE | PLACEHOLDER => []
  | LINE_COMMENT => [lineCommentText (value t)]
  | BLOCK_COMMENT => if hasNewline (value t) then [] else [value t]
  | RESERVED_TOPLEVEL | RESERVED_NEWLINE | RESERVED_NEWLINE_WITH_INDENT =>
      [equalizeWhitespace (value t)]
  | _ => [value t]
  end.

(** The texts of a token sequence, in order. *)
Definition expectedTexts (tokens : list Token) : list string :=
  flat_map expectedText tokens.

(** The text is not empty and does not end in whitespace. *)
Definition solidText (v : string) : bool :=
  negb (isEmpty v) && negb (endsWithWhitespace v).

(** Every text expected of the token is solid. *)
Definition solidToken (t : Token) : bool := forallb solidText (expectedText t).

(** The next token that is not whitespace exists and is neither a comment
    nor a placeholder: it takes a pending comma and emits it. *)
Fixpoint nextTakesComma (tokens : list Token) : bool :=
  match tokens with
  | [] => false
  | t :: rest =>
      match type t with
      | WHITESPACE => nextTakesComma rest
      | LINE_COMMENT | BLOCK_COMMENT | PLACEHOLDER => false
      | _ => true
      end
  end.

(** Every comma of the sequence is followed by a token that takes it. *)
Fixpoint commasAttach (tokens : list Token) : bool :=
  match tokens with
  | [] => true
  | t :: rest => (if isComma t then nextTakesComma rest else true) && commasAttach rest
  end.

(** The token is of type whitespace. *)
Definition isWhitespaceToken (t : Token) : bool := tokenType_eqb (type t) WHITESPACE.

(** Whether an opening parenthesis behind a token of type [prev] has the
    buffer trimmed before it. *)
Definition gluedAfter (prev : option tokenType) : bool :=
  match prev with
  | Some p => negb (tokenType_eqb p WHITESPACE) && negb (tokenType_eqb p OPEN_PAREN)
  | None => false
  end.

(** What the layout can depend on: the tokens that are not whitespace, and
    for each opening parenthesis whether it is glued to the token before
    it. *)
Fixpoint contentFrom (prev : option tokenType) (tokens : list Token)
    : list (bool * Token) :=
  match tokens with
  | [] => []
  | t :: rest =>
      if isWhitespaceToken t then contentFrom (Some WHITESPACE) rest
      else (tokenType_eqb (type t) OPEN_PAREN && gluedAfter prev, t)
             :: contentFrom (Some (type t)) rest
  end.

(** The content of a whole token array. *)
Definition content (tokens : list Token) : list (bool * Token) :=
  contentFrom None tokens.

(** The detector decides on the tokens behind the opening parenthesis, and
    whitespace tokens among them make no difference. *)
Definition detectorIgnoresWhitespace : Prop :=
  forall (ts1 ts2 : list Token) (i1 i2 : nat) (t : Token) (b : InlineBlock),
    tokenAt ts1 i1 = Some t -> tokenAt ts2 i2 = Some t ->
    type t = OPEN_PAREN ->
    filter (fun t => negb (isWhitespaceToken t)) (skipn (S i1) ts1) =
    filter (fun t => negb (isWhitespaceToken t)) (skipn (S i2) ts2) ->
    beginIfPossible ts1 i1 b = beginIfPossible ts2 i2 b.

(** The last token of a list, and its type. *)
Fixpoint lastToken (tokens : list Token) : option Token :=
  match tokens with
  | [] => None
  | [t] => Some t
  | _ :: rest => lastToken rest
  end.

Definition lastType (tokens : list Token) : option tokenType :=
  option_map type (lastToken tokens).

End Vocabulary.

(** ** Tokens and formatters of the examples *)

Module Sample.

Import SpecModel.

Definition SELECT := mkToken RESERVED_TOPLEVEL "SELECT".
Definition FROM := mkToken RESERVED_TOPLEVEL "FROM".
Definition ws := mkToken WHITESPACE " ".
Definition word (v : string) := mkToken OTHER v.
Definition comma := mkToken PUNCTUATION ",".
Definition semicolon := mkToken PUNCTUATION ";".
Definition placeholder := mkToken PLACEHOLDER "?".

(** The string [getFormattedQueryFromTokens] returns. *)
Definition buffer (tokens : list Token) (f : Formatter) : string :=
  snd (snd (getFormattedQueryFromTokens tokens f)).

End Sample.

(** ** Observations of the further properties *)

Module StrMore.

(** The characters of a string that are not whitespace, in order. *)
Fixpoint nonWhitespace (s : string) : string :=
  match s with
  | EmptyString => EmptyString
  | String c s' => if isWhitespace c then nonWhitespace s' else String c (nonWhitespace s')
  end.

(** Every whitespace character of the string is a space, and no two stand
    side by side. *)
Fixpoint singleSpaced (s : string) : bool :=
  match s with
  | EmptyString => true
  | String c s' =>
      (if isWhitespace c then Ascii.eqb c SP && negb (startsWithWhitespace s') else true)
      && singleSpaced s'
  end.

(** The maximal runs of characters that are not whitespace, in order. *)
Fixpoint words (s : string) : list string :=
  match s with
  | EmptyString => []
  | String c s' =>
      if isWhitespace c then words s'
      else if startsWithWhitespace s' then String c EmptyString :: words s'
      else match words s' with
           | w :: ws => String c w :: ws
           | [] => [String c EmptyString]
           end
  end.

(** All characters of the string are whitespace. *)
Fixpoint allWhitespace (s : string) : bool :=
  match s with
  | EmptyString => true
  | String c s' => isWhitespace c && allWhitespace s'
  end.

End StrMore.

Import StrMore.

Section MoreVocabulary.

Context {IB : InlineBlockDetector} {PR : PlaceholderResolver}.

(** The token is an opening parenthesis. *)
Definition isOpenParenToken (t : Token) : bool := tokenType_eqb (type t) OPEN_PAREN.

(** The last token of a reserved kind in the list, or [d]. *)
Definition lastReservedOr (d : option Token) (tokens : list Token) : option Token :=
  fold_left (fun acc t => if isReservedType (type t) then Some t else acc) tokens d.

(** The values of the tokens that are not whitespace, a space behind each. *)
Fixpoint spaced (tokens : list Token) : string :=
  match tokens with
  | [] => EmptyString
  | t :: rest =>
      if isWhitespaceToken t then spaced rest else value t ++ " " ++ spaced rest
  end.

(** Whitespace, an other reserved keyword, or a token of the last branch. *)
Definition isPlainToken (t : Token) : bool :=
  isWhitespaceToken t || checksMaxCharacter t.

(** The type of a parenthesis. *)
Definition isParenType (ty : tokenType) : bool :=
  match ty with OPEN_PAREN | CLOSE_PAREN => true | _ => false end.

End MoreVocabulary.

Module MoreSample.

(** A fresh formatter over the collaborators of the examples. *)
Definition fresh : Formatter := SpecModel.formatter None None.

End MoreSample.

(** * Properties *)

(** ** Strings *)

Module StrFacts.

Lemma append_nil_r (s : string) : s ++ EmptyString = s.
Proof. induction s as [|c s IH]; simpl; [reflexivity | now rewrite IH]. Qed.

Lemma append_assoc (a b c : string) : (a ++ b) ++ c = a ++ b ++ c.
Proof. induction a as [|x a IH]; simpl; [reflexivity | now rewrite IH]. Qed.

Lemma length_append (a b : string) :
  String.length (a ++ b) = String.length a + String.length b.
Proof. induction a as [|x a IH]; simpl; [reflexivity | now rewrite IH]. Qed.

Lemma append_empty (a b : string) :
  a ++ b = EmptyString -> a = EmptyString /\ b = EmptyString.
Proof. destruct a; simpl; [auto | discriminate]. Qed.

(** *** [trimEnd] *)

Lemma trimEnd_cons (c : ascii) (s : string) :
  trimEnd (String c s) =
  if isEmpty (trimEnd s) && isWhitespace c then EmptyString
  else String c (trimEnd s).
Proof.
  simpl. destruct (trimEnd s); simpl; [destruct (isWhitespace c)|]; reflexivity.
Qed.

Lemma trimEnd_idempotent (s : string) : trimEnd (trimEnd s) = trimEnd s.
Proof.
  induction s as [|c s IH]; [reflexivity|].
  rewrite trimEnd_cons.
  destruct (isEmpty (trimEnd s) && isWhitespace c) eqn:E; [reflexivity|].
  rewrite trimEnd_cons, IH, E. reflexivity.
Qed.

(** A string without trailing whitespace is left alone. *)
Lemma trimEnd_fixed (s : string) :
  endsWithWhitespace s = false -> trimEnd s = s.
Proof.
  unfold endsWithWhitespace.
  induction s as [|c s IH]; [reflexivity|].
  intros H. rewrite trimEnd_cons.
  destruct s as [|d s].
  - simpl in *. now rewrite H.
  - rewrite IH by exact H.
    reflexivity.
Qed.

Lemma trimEnd_not_ws (s : string) : endsWithWhitespace (trimEnd s) = false.
Proof.
  unfold endsWithWhitespace.
  induction s as [|c s IH]; [reflexivity|].
  rewrite trimEnd_cons.
  destruct (trimEnd s) as [|d t] eqn:E; simpl.
  - destruct (isWhitespace c) eqn:W; simpl; [reflexivity | now rewrite W].
  - exact IH.
Qed.

(** Trimming only removes a whitespace suffix. *)
Lemma trimEnd_append_ws (q w : string) :
  trimEnd w = EmptyString -> trimEnd (q ++ w) = trimEnd q.
Proof.
  intros Hw. induction q as [|c q IH]; simpl; [exact Hw|].
  now rewrite IH.
Qed.

Lemma trimEnd_append_keep (q s : string) :
  trimEnd s <> EmptyString -> trimEnd (q ++ s) = q ++ trimEnd s.
Proof.
  intros Hs. induction q as [|c q IH]; simpl; [reflexivity|].
  rewrite IH. destruct (q ++ trimEnd s) eqn:E; [|reflexivity].
  apply append_empty in E. tauto.
Qed.

Lemma trimEnd_append (q s : string) :
  trimEnd (q ++ s) =
  if isEmpty (trimEnd s) then trimEnd q else q ++ trimEnd s.
Proof.
  destruct (trimEnd s) eqn:E; simpl.
  - now apply trimEnd_append_ws.
  - rewrite <- E. apply trimEnd_append_keep. rewrite E. discriminate.
Qed.

Lemma trimEnd_sp : trimEnd " " = EmptyString.
Proof. reflexivity. Qed.

Lemma trimEnd_then_space (q : string) : trimEnd (trimEnd q ++ " ") = trimEnd q.
Proof.
  rewrite trimEnd_append_ws by reflexivity. apply trimEnd_idempotent.
Qed.

(** The part [trimEnd] removes: [s] is its trimmed form followed by
    whitespace only. *)
Lemma trimEnd_decompose (s : string) :
  exists w, s = trimEnd s ++ w /\ trimEnd w = EmptyString.
Proof.
  induction s as [|c s [w [Hs Hw]]].
  - exists EmptyString. split; reflexivity.
  - rewrite trimEnd_cons.
    destruct (isEmpty (trimEnd s) && isWhitespace c) eqn:E.
    + exists (String c s). split; [reflexivity|].
      apply andb_true_iff in E. destruct E as [E1 E2].
      simpl. destruct (trimEnd s); [now rewrite E2 | discriminate].
    + exists w. split; [|exact Hw]. simpl. now rewrite <- Hs.
Qed.

Lemma repeat_succ_r (s : string) (n : nat) :
  Str.repeat s (S n) = Str.repeat s n ++ s.
Proof.
  induction n as [|n IH]; simpl.
  - now rewrite append_nil_r.
  - simpl in IH. rewrite IH at 1. now rewrite append_assoc.
Qed.

End StrFacts.

Import StrFacts.

(** ** Collapsing whitespace *)

Module CollapseFacts.

Lemma collapseWhitespace_cons (c : ascii) (s : string) :
  collapseWhitespace (String c s) =
  if isWhitespace c then
    if isEmpty s then String SP EmptyString
    else if startsWithWhitespace s then collapseWhitespace s
         else String SP (collapseWhitespace s)
  else String c (collapseWhitespace s).
Proof. destruct s; reflexivity. Qed.

Lemma startsWithWhitespace_collapse (s : string) :
  startsWithWhitespace (collapseWhitespace s) = startsWithWhitespace s.
Proof.
  induction s as [|c s IH]; [reflexivity|].
  rewrite collapseWhitespace_cons. destruct (isWhitespace c) eqn:W.
  - destruct s as [|d s]; [simpl; now rewrite W|].
    cbn [isEmpty]. destruct (startsWithWhitespace (String d s)) eqn:D.
    + rewrite IH. simpl. now rewrite W.
    + simpl. now rewrite W.
  - simpl. reflexivity.
Qed.

Lemma isEmpty_collapse (s : string) :
  isEmpty (collapseWhitespace s) = isEmpty s.
Proof.
  induction s as [|c s IH]; [reflexivity|].
  rewrite collapseWhitespace_cons. cbn [isEmpty].
  destruct (isWhitespace c); [|reflexivity].
  destruct (isEmpty s) eqn:E; [reflexivity|].
  destruct (startsWithWhitespace s); [|reflexivity].
  now rewrite IH.
Qed.

Lemma collapseWhitespace_idempotent (s : string) :
  collapseWhitespace (collapseWhitespace s) = collapseWhitespace s.
Proof.
  induction s as [|c s IH]; [reflexivity|].
  rewrite collapseWhitespace_cons. destruct (isWhitespace c) eqn:W.
  - destruct (isEmpty s) eqn:E; [reflexivity|].
    destruct (startsWithWhitespace s) eqn:D; [exact IH|].
    rewrite collapseWhitespace_cons.
    change (isWhitespace SP) with true. cbn iota.
    now rewrite isEmpty_collapse, E, startsWithWhitespace_collapse, D, IH.
  - rewrite collapseWhitespace_cons, W. now rewrite IH.
Qed.

Lemma nonWhitespace_collapse (s : string) :
  nonWhitespace (collapseWhitespace s) = nonWhitespace s.
Proof.
  induction s as [|c s IH]; [reflexivity|].
  rewrite collapseWhitespace_cons. cbn [nonWhitespace].
  destruct (isWhitespace c) eqn:W.
  - destruct s as [|d s]; [reflexivity|]. cbn [isEmpty].
    destruct (startsWithWhitespace (String d s)); [exact IH|].
    cbn [nonWhitespace]. change (isWhitespace SP) with true. cbn iota. exact IH.
  - cbn [nonWhitespace]. now rewrite W, IH.
Qed.

Lemma singleSpaced_collapse (s : string) :
  singleSpaced (collapseWhitespace s) = true.
Proof.
  induction s as [|c s IH]; [reflexivity|].
  rewrite collapseWhitespace_cons. destruct (isWhitespace c) eqn:W.
  - destruct (isEmpty s) eqn:E; [reflexivity|].
    destruct (startsWithWhitespace s) eqn:D; [exact IH|].
    cbn [singleSpaced]. change (isWhitespace SP) with true. cbn iota.
    now rewrite IH, startsWithWhitespace_collapse, D.
  - cbn [singleSpaced]. now rewrite W, IH.
Qed.

Lemma words_collapse (s : string) :
  words (collapseWhitespace s) = words s.
Proof.
  induction s as [|c s IH]; [reflexivity|].
  rewrite collapseWhitespace_cons. destruct (isWhitespace c) eqn:W.
  - cbn [words]. rewrite W. destruct s as [|d s]; [reflexivity|]. cbn [isEmpty].
    destruct (startsWithWhitespace (String d s)); [exact IH|].
    cbn [words]. change (isWhitespace SP) with true. cbn iota. exact IH.
  - cbn [words]. now rewrite W, startsWithWhitespace_collapse, IH.
Qed.

Lemma endsWithWhitespace_String (c : ascii) (s : string) :
  endsWithWhitespace (String c s) =
  if isEmpty s then isWhitespace c else endsWithWhitespace s.
Proof. destruct s; reflexivity. Qed.

Lemma endsWithWhitespace_collapse (s : string) :
  endsWithWhitespace (collapseWhitespace s) = endsWithWhitespace s.
Proof.
  induction s as [|c s IH]; [reflexivity|].
  rewrite collapseWhitespace_cons, (endsWithWhitespace_String c s).
  destruct (isWhitespace c) eqn:W.
  - destruct (isEmpty s) eqn:E; [reflexivity|].
    destruct (startsWithWhitespace s); [exact IH|].
    now rewrite endsWithWhitespace_String, isEmpty_collapse, E.
  - now rewrite endsWithWhitespace_String, isEmpty_collapse, IH, W.
Qed.

End CollapseFacts.

Import CollapseFacts.

(** ** Tactics *)

(** Unfolds one call of the callback down to the string and counter
    operations. *)
Ltac unfold_step :=
  unfold callback, dispatch, formatByValue, formatToplevelReservedWord,
    formatNewlineReservedWord, formatNewlineReservedWordWithIndent,
    formatLineComment, formatBlockComment, formatOpeningParentheses,
    formatClosingParentheses, formatComma, checkMaxCharacter,
    dropMaxCharacterIndent in *.

(** Case analysis on every condition the goal branches on. *)
Ltac break_ifs :=
  repeat match goal with
         | |- context [if ?b then _ else _] => destruct b; simpl
         end.

(** ** Single steps of the layout engine *)

Section Steps.

Context {IB : InlineBlockDetector} {PR : PlaceholderResolver}.

Lemma spliced_type (f : Formatter) (token : Token) :
  type (spliced f token) = type token.
Proof. unfold spliced. destruct (splices f token); reflexivity. Qed.

Lemma afterSplice_indentation (f : Formatter) (token : Token) :
  indentation (afterSplice f token) = indentation f.
Proof. unfold afterSplice. destruct (splices f token); reflexivity. Qed.

Lemma forEachFrom_succ (n index : nat) (tokens : list Token) (st : Result) :
  forEachFrom (S n) index tokens st =
  match tokenAt tokens index with
  | Some token =>
      let '(tokens, st) := callback tokens index token st in
      forEachFrom n (S index) tokens st
  | None => (tokens, st)
  end.
Proof. reflexivity. Qed.

(** Any property of [this] that every callback keeps holds after the loop. *)
Lemma forEachFrom_invariant (P : Formatter -> Prop) :
  (forall tokens index token f q,
      P f -> P (fst (snd (callback tokens index token (f, q))))) ->
  forall n index tokens f q,
    P f -> P (fst (snd (forEachFrom n index tokens (f, q)))).
Proof.
  intros step n. induction n as [|n IH]; intros index tokens f q HP.
  - exact HP.
  - rewrite forEachFrom_succ.
    destruct (tokenAt tokens index) as [token|]; [|exact HP].
    specialize (step tokens index token f q HP).
    destruct (callback tokens index token (f, q)) as [tokens' [f' q']].
    apply IH. exact step.
Qed.

(** The top-level counter is only ever zero or one. *)
Lemma callback_topLevel (tokens : list Token) (index : nat) (token : Token)
    (f : Formatter) (q : string) :
  topLevel (indentation f) <= 1 ->
  topLevel (indentation (fst (snd (callback tokens index token (f, q))))) <= 1.
Proof.
  intros H. unfold_step.
  rewrite spliced_type.
  assert (H0 : topLevel (indentation (afterSplice f token)) <= 1)
    by now rewrite afterSplice_indentation.
  set (f0 := afterSplice f token) in *. clearbody f0.
  set (tk := spliced f token). clearbody tk.
  set (ts := if splices f token then _ else _). clearbody ts.
  destruct (type token); simpl; break_ifs; simpl; try exact H0; lia.
Qed.

Lemma run_topLevel (c : Cfg) (tz : string -> list Token) (n : nat)
    (tokens : list Token) :
  topLevel (indentation
    (fst (snd (forEachFrom n 0 tokens (new_Formatter c tz, EmptyString))))) <= 1.
Proof.
  apply (forEachFrom_invariant (fun f => topLevel (indentation f) <= 1)).
  - intros. now apply callback_topLevel.
  - simpl. lia.
Qed.

(** C2.  A token of type reserved-toplevel: the overflow counter is reset,
    the newline-with-indent and toplevel counters go down by one each, a
    new line is started, the toplevel counter goes up by one, the keyword
    is appended with its whitespace runs collapsed, and another new line is
    started.  The appended keyword has the words of the token's value, in
    order; its only whitespace is single spaces, none next to another; and
    it starts and ends with whitespace exactly when the value does.  The
    line after the keyword is indented one unit deeper than the keyword,
    and in every state a fresh formatter reaches the toplevel counter is
    zero on the keyword's line and one below it. *)
Theorem toplevel_keyword_step (tokens : list Token) (index : nat) (token : Token)
    (query : string) (f : Formatter) :
  type token = RESERVED_TOPLEVEL ->
  let token' := spliced f token in
  let f0 := afterSplice f token in
  let i := indentation f0 in
  let keyword := equalizeWhitespace (value token') in
  snd (callback tokens index token (f, query)) =
    (set_previousReservedWord (set_indentation f0 (afterToplevelKeyword i)) token',
     trimEnd (trimEnd query ++ nl ++ getIndent (atToplevelKeyword i) ++ keyword)
     ++ nl ++ getIndent (afterToplevelKeyword i))
  /\ (words keyword = words (value token') /\
      singleSpaced keyword = true /\
      startsWithWhitespace keyword = startsWithWhitespace (value token') /\
      endsWithWhitespace keyword = endsWithWhitespace (value token'))
  /\ getIndent (afterToplevelKeyword i) = getIndent (atToplevelKeyword i) ++ indent i
  /\ (forall c tz n ts,
        let reached :=
          indentation (fst (snd (forEachFrom n 0 ts (new_Formatter c tz, EmptyString)))) in
        topLevel (atToplevelKeyword reached) = 0 /\
        topLevel (afterToplevelKeyword reached) = 1).
Proof.
  intros Hty token' f0 i keyword. split; [|split; [|split]].
  - unfold_step. fold token' f0.
    assert (Hty' : type token' = RESERVED_TOPLEVEL)
      by (unfold token'; now rewrite spliced_type).
    rewrite Hty'. unfold addNewline, atToplevelKeyword, afterToplevelKeyword.
    simpl. fold i. now rewrite !append_assoc.
  - unfold keyword, equalizeWhitespace.
    rewrite words_collapse, singleSpaced_collapse, startsWithWhitespace_collapse,
      endsWithWhitespace_collapse.
    repeat split.
  - unfold getIndent, levels. simpl.
    rewrite <- repeat_succ_r. reflexivity.
  - intros c tz n ts reached.
    pose proof (run_topLevel c tz n ts) as H. fold reached in H.
    simpl. lia.
Qed.

Lemma tokenAt_setAt (tokens : list Token) (index : nat) (t u : Token) :
  tokenAt tokens index = Some t -> tokenAt (setAt index u tokens) index = Some u.
Proof.
  unfold tokenAt. revert index.
  induction tokens as [|x tokens IH]; intros [|index]; simpl; try discriminate.
  - reflexivity.
  - apply IH.
Qed.

(** Inside the callback [tokens[index]] is the token after the splice. *)
Lemma valueAt_spliced (tokens : list Token) (index : nat) (token : Token)
    (f : Formatter) :
  tokenAt tokens index = Some token ->
  valueAt (if splices f token then setAt index (spliced f token) tokens else tokens)
    index = value (spliced f token).
Proof.
  intros H. unfold valueAt, spliced.
  destruct (splices f token).
  - now rewrite (tokenAt_setAt _ _ _ _ H).
  - now rewrite H.
Qed.

(** C9.  Before an other-reserved keyword or a default token is emitted:
    when the maximum line length is not zero and the last line of the
    buffer plus the token's value is longer than it, the overflow counter
    goes up by one and a new line is started before the token; otherwise,
    and always when the maximum is zero, neither the buffer nor a counter
    changes before the token is appended. *)
Theorem max_character_check_step (tokens : list Token) (index : nat)
    (token : Token) (query : string) (f : Formatter) :
  tokenAt tokens index = Some token ->
  checksMaxCharacter (spliced f token) = true ->
  let token' := spliced f token in
  let f0 := afterSplice f token in
  let i := indentation f0 in
  let exceeds :=
    maxCharacterPerLine f0 <
    String.length (lastLine query) + String.length (value token') in
  let r := snd (callback tokens index token (f, query)) in
  (maxCharacterPerLine f0 <> 0 -> exceeds ->
     indentation (fst r) =
       mkIndentation (indent i) (topLevel i) (blockLevel i)
         (newLineWithIndentLevel i) (S (maxCharacterLevel i)) /\
     snd r = (trimEnd query ++ nl ++ getIndent (indentation (fst r)))
             ++ value token' ++ " ")
  /\ (maxCharacterPerLine f0 = 0 \/ ~ exceeds ->
     indentation (fst r) = i /\ snd r = query ++ value token' ++ " ").
Proof.
  intros Hat Hck token' f0 i exceeds r.
  assert (Hr : r =
    let '(f1, q1) :=
      checkMaxCharacter
        (if splices f token then setAt index token' tokens else tokens)
        index query f0 in
    (match type token' with RESERVED => set_previousReservedWord f1 token' | _ => f1 end,
     formatWithSpaces token' q1)).
  { unfold r, callback, dispatch, formatByValue. fold token' f0.
    unfold checksMaxCharacter, isPlainValue in Hck. fold token' in Hck.
    destruct (type token'); try discriminate Hck;
      [ destruct (checkMaxCharacter _ _ _ _); reflexivity | | ];
      apply negb_true_iff in Hck;
      repeat (apply orb_false_iff in Hck; destruct Hck as [Hck ?]);
      simpl; rewrite Hck; repeat match goal with H : _ = false |- _ => rewrite H end;
      destruct (checkMaxCharacter _ _ _ _); reflexivity. }
  rewrite Hr. unfold checkMaxCharacter.
  unfold token'. rewrite (valueAt_spliced _ _ _ _ Hat). fold token'.
  split.
  - intros Hmax Hex.
    apply Nat.eqb_neq in Hmax. apply Nat.ltb_lt in Hex.
    rewrite Hmax, Hex. simpl.
    split.
    + destruct (type token'); reflexivity.
    + unfold formatWithSpaces, addNewline.
      destruct (type token'); reflexivity.
  - intros Hno.
    assert (E : negb (Nat.eqb (maxCharacterPerLine f0) 0) &&
                Nat.ltb (maxCharacterPerLine f0)
                  (String.length (lastLine query) + String.length (value token'))
                = false).
    { destruct Hno as [Hz | Hne].
      - rewrite Hz. reflexivity.
      - apply andb_false_iff. right. apply Nat.ltb_nlt. exact Hne. }
    rewrite E. simpl. split.
    + destruct (type token'); reflexivity.
    + reflexivity.
Qed.

(** The comma branch of the callback, for a token whose value is a comma
    after the splice: inside an inline block, or when the value of the
    previous reserved word matches LIMIT, the buffer is trimmed and the
    comma and one space are appended, the pending prefix staying as it is;
    otherwise the buffer is trimmed, the pending prefix becomes the comma
    and a new line is started. *)
Lemma comma_branch (tokens : list Token) (index : nat) (token : Token)
    (query : string) (f : Formatter) :
  isComma (spliced f token) = true ->
  let f0 := afterSplice f token in
  let r := snd (callback tokens index token (f, query)) in
  (isActive (inlineBlock f0) = true \/ previousIsLimit f0 = true ->
     snd r = trimEnd query ++ "," ++ " " /\
     nextLinePrepend (fst r) = nextLinePrepend f0)
  /\ (isActive (inlineBlock f0) = false -> previousIsLimit f0 = false ->
     snd r = trimEnd query ++ nl ++ getIndent (indentation (fst r)) /\
     nextLinePrepend (fst r) = ",").
Proof.
  intros Hc f0 r.
  assert (Hr : r = formatComma (mkToken (type (spliced f token)) ",") query f0).
  { unfold r, callback, dispatch, formatByValue. fold f0.
    unfold isComma in Hc.
    destruct (spliced f token) as [ty v]. simpl in *.
    destruct ty; try discriminate Hc; rewrite Hc;
      apply String.eqb_eq in Hc; subst v; reflexivity. }
  rewrite Hr. unfold formatComma, dropMaxCharacterIndent. simpl.
  split.
  - intros H.
    assert (E : isActive (inlineBlock f0) || previousIsLimit f0 = true)
      by (apply orb_true_iff; exact H).
    unfold previousIsLimit in *. simpl. rewrite E. simpl. split; reflexivity.
  - intros Ha Hl.
    unfold previousIsLimit in *. simpl. rewrite Ha, Hl. simpl.
    unfold addNewline. simpl. rewrite trimEnd_then_space. split; reflexivity.
Qed.

(** The previous reserved word is the last token of a reserved kind, as the
    splice left it. *)
Lemma dispatch_previousReservedWord (tokens : list Token) (index : nat)
    (token : Token) (q : string) (f : Formatter) :
  previousReservedWord (fst (dispatch tokens index token q f)) =
  if isReservedType (type token) then Some token else previousReservedWord f.
Proof.
  unfold_step. destruct (type token); simpl; break_ifs; reflexivity.
Qed.

Lemma afterSplice_previousReservedWord (f : Formatter) (token : Token) :
  previousReservedWord (afterSplice f token) = previousReservedWord f.
Proof. unfold afterSplice. destruct (splices f token); reflexivity. Qed.

(** With nothing pending the splice leaves the token and the state alone. *)
Lemma nothing_pending (f : Formatter) (token : Token) :
  nextLinePrepend f = EmptyString ->
  spliced f token = token /\ afterSplice f token = f.
Proof.
  intros H. unfold spliced, afterSplice, splices. rewrite H. split; reflexivity.
Qed.

(** The splice: a pending prefix goes in front of the value of the next
    token that is not whitespace or a comment, and is cleared. *)
Lemma pending_prefix_spliced (f : Formatter) (token : Token) :
  nextLinePrepend f <> EmptyString ->
  isTrivia (type token) = false ->
  spliced f token = mkToken (type token) (nextLinePrepend f ++ value token) /\
  nextLinePrepend (afterSplice f token) = EmptyString.
Proof.
  intros Hp Ht. unfold spliced, afterSplice, splices. rewrite Ht.
  destruct (nextLinePrepend f) as [|c p]; [contradiction|].
  split; reflexivity.
Qed.

(** The semicolon branch: the buffer is trimmed, and the semicolon and two
    line feeds are appended. *)
Lemma semicolon_step (tokens : list Token) (index : nat) (token : Token)
    (query : string) (f : Formatter) :
  isSemicolon (spliced f token) = true ->
  snd (callback tokens index token (f, query)) =
  (afterSplice f token, trimEnd query ++ ";" ++ nl ++ nl).
Proof.
  intros Hs. unfold callback, dispatch, formatByValue, formatWithoutSpaces.
  unfold isSemicolon in Hs.
  destruct (spliced f token) as [ty v]. simpl in *.
  destruct ty; try discriminate Hs; apply String.eqb_eq in Hs; subst v; simpl;
    now rewrite append_assoc.
Qed.

(** ** The loop, seen from one position *)

Lemma tokenAt_middle (done rest : list Token) (t : Token) :
  tokenAt (done ++ t :: rest) (List.length done) = Some t.
Proof.
  unfold tokenAt. induction done as [|x done IH]; simpl; [reflexivity | exact IH].
Qed.

Lemma setAt_middle (done rest : list Token) (t u : Token) :
  setAt (List.length done) u (done ++ t :: rest) = (done ++ u :: rest)%list.
Proof.
  induction done as [|x done IH]; simpl; [reflexivity | now rewrite IH].
Qed.

Lemma callback_middle (done rest : list Token) (token : Token) (st : Result) :
  callback (done ++ token :: rest) (List.length done) token st =
  ((done ++ spliced (fst st) token :: rest)%list,
   dispatch (done ++ spliced (fst st) token :: rest) (List.length done)
     (spliced (fst st) token) (snd st) (afterSplice (fst st) token)).
Proof.
  destruct st as [f q]. unfold callback. simpl.
  rewrite setAt_middle. unfold spliced.
  destruct (splices f token); reflexivity.
Qed.

Lemma forEachFrom_run (rest done : list Token) (st : Result) :
  forEachFrom (List.length rest) (List.length done) (done ++ rest) st =
  run done rest st.
Proof.
  revert done st. induction rest as [|token rest IH]; intros done st.
  - simpl. now rewrite app_nil_r.
  - cbn [List.length]. rewrite forEachFrom_succ, tokenAt_middle, callback_middle.
    cbn [run].
    replace (S (List.length done))
      with (List.length (done ++ [spliced (fst st) token]))
      by (rewrite length_app; simpl; lia).
    replace (done ++ spliced (fst st) token :: rest)%list
      with ((done ++ [spliced (fst st) token]) ++ rest)%list
      by (rewrite <- app_assoc; reflexivity).
    rewrite IH.
    rewrite <- app_assoc. reflexivity.
Qed.

Lemma getFormattedQueryFromTokens_run (tokens : list Token) (f : Formatter) :
  getFormattedQueryFromTokens tokens f = run [] tokens (f, EmptyString).
Proof. unfold getFormattedQueryFromTokens. apply (forEachFrom_run tokens []). Qed.

(** ** What the call does to the token objects *)

Lemma spliced_touched (p0 : string) (f : Formatter) (token : Token) :
  pendingIn p0 f -> touched p0 token (spliced f token).
Proof.
  intros Hp. unfold touched, prefixedBy, spliced, splices.
  destruct (isTrivia (type token)) eqn:Et.
  - rewrite andb_false_r. split; [reflexivity|]. left. split; reflexivity.
  - rewrite andb_true_r. split; [discriminate|].
    destruct (Nat.eqb _ 0); simpl.
    + left. split; reflexivity.
    + destruct Hp as [Hp | [Hp | Hp]]; rewrite Hp; simpl; tauto.
Qed.

Lemma dispatch_pendingIn (p0 : string) (tokens : list Token) (index : nat)
    (token : Token) (q : string) (f : Formatter) :
  pendingIn p0 f -> pendingIn p0 (fst (dispatch tokens index token q f)).
Proof.
  intros Hp. unfold_step.
  destruct (type token); simpl; try exact Hp;
    try (break_ifs; exact Hp);
    (destruct (String.eqb_spec (value token) ",") as [Hv|];
     [ break_ifs; try exact Hp; right; left; exact Hv
     | break_ifs; exact Hp ]).
Qed.

Lemma afterSplice_pendingIn (p0 : string) (f : Formatter) (token : Token) :
  pendingIn p0 f -> pendingIn p0 (afterSplice f token).
Proof.
  intros Hp. unfold afterSplice. destruct (splices f token); [left; reflexivity | exact Hp].
Qed.

Lemma run_tokens (p0 : string) (rest done : list Token) (st : Result) :
  pendingIn p0 (fst st) ->
  exists rest',
    fst (run done rest st) = (done ++ rest')%list /\ Forall2 (touched p0) rest rest'.
Proof.
  revert done st. induction rest as [|token rest IH]; intros done st Hp.
  - exists []. simpl. split; [now rewrite app_nil_r | constructor].
  - cbn [run].
    destruct (IH (done ++ [spliced (fst st) token])%list
                (dispatch (done ++ spliced (fst st) token :: rest)%list
                   (List.length done) (spliced (fst st) token) (snd st)
                   (afterSplice (fst st) token))) as [rest' [E F]].
    { apply dispatch_pendingIn. now apply afterSplice_pendingIn. }
    exists (spliced (fst st) token :: rest'). split.
    + rewrite E, <- app_assoc. reflexivity.
    + constructor; [now apply spliced_touched | exact F].
Qed.

(** C6, as the code has it.  The call keeps the sequence, its length and
    every token's type; whitespace and comment tokens keep their value; the
    value of any other token is afterwards its old value, behind nothing,
    behind a comma, or behind the prefix that was pending when the call
    began. *)
Theorem tokens_after_call (tokens : list Token) (f : Formatter) :
  Forall2 (touched (nextLinePrepend f)) tokens
    (fst (getFormattedQueryFromTokens tokens f)).
Proof.
  rewrite getFormattedQueryFromTokens_run.
  destruct (run_tokens (nextLinePrepend f) tokens [] (f, EmptyString))
    as [rest' [E F]].
  - right. right. reflexivity.
  - rewrite E. exact F.
Qed.

(** *** The comma in the token stream *)

(** The loop after the tokens [before] of an array: these tokens are in the
    array as the splice left them, the ones behind them are untouched, and
    the previous reserved word is the last token of a reserved kind among
    the former. *)
Lemma forEachFrom_prefix (p0 : string) (before : list Token) :
  forall (done rest : list Token) (st : Result),
  pendingIn p0 (fst st) ->
  exists (before' : list Token) (st' : Result),
    forEachFrom (List.length before) (List.length done) (done ++ before ++ rest) st
      = ((done ++ before' ++ rest)%list, st') /\
    List.length before' = List.length before /\
    Forall2 (touched p0) before before' /\
    previousReservedWord (fst st') =
      lastReservedOr (previousReservedWord (fst st)) before'.
Proof.
  induction before as [|t before IH]; intros done rest st Hp.
  - exists [], st. simpl. repeat split. constructor.
  - cbn [List.length app]. rewrite forEachFrom_succ, tokenAt_middle, callback_middle.
    set (t' := spliced (fst st) t).
    set (st1 := dispatch (done ++ t' :: before ++ rest) (List.length done) t'
                  (snd st) (afterSplice (fst st) t)).
    destruct (IH (done ++ [t'])%list rest st1) as (b' & st' & E & L & F & P).
    { apply dispatch_pendingIn. now apply afterSplice_pendingIn. }
    exists (t' :: b'), st'. split; [|split; [|split]].
    + rewrite length_app in E. cbn [List.length] in E.
      replace (List.length done + 1) with (S (List.length done)) in E by lia.
      rewrite <- !app_assoc in E. exact E.
    + simpl. now rewrite L.
    + constructor; [now apply spliced_touched | exact F].
    + rewrite P. unfold st1.
      rewrite dispatch_previousReservedWord, afterSplice_previousReservedWord.
      reflexivity.
Qed.

(** One more step of the loop is the callback at the next token. *)
Lemma forEachFrom_next (before : list Token) :
  forall (done rest : list Token) (t : Token) (st : Result),
  forEachFrom (S (List.length before)) (List.length done)
    (done ++ before ++ t :: rest) st =
  let reached :=
    forEachFrom (List.length before) (List.length done)
      (done ++ before ++ t :: rest) st in
  match tokenAt (fst reached) (List.length done + List.length before) with
  | Some token =>
      callback (fst reached) (List.length done + List.length before) token (snd reached)
  | None => reached
  end.
Proof.
  induction before as [|x before IH]; intros done rest t st.
  - cbn [List.length app forEachFrom fst snd]. rewrite Nat.add_0_r.
    destruct (tokenAt (done ++ t :: rest) (List.length done)) as [token|];
      [|reflexivity].
    destruct (callback (done ++ t :: rest) (List.length done) token st); reflexivity.
  - cbn [List.length app].
    rewrite (forEachFrom_succ (S (List.length before))),
      (forEachFrom_succ (List.length before)), tokenAt_middle, callback_middle.
    set (x' := spliced (fst st) x).
    set (st1 := dispatch (done ++ x' :: before ++ t :: rest) (List.length done) x'
                  (snd st) (afterSplice (fst st) x)).
    pose proof (IH (done ++ [x'])%list rest t st1) as E.
    rewrite length_app in E. cbn [List.length] in E.
    replace (List.length done + 1) with (S (List.length done)) in E by lia.
    rewrite <- !app_assoc in E. cbn [app] in E.
    replace (List.length done + S (List.length before))
      with (S (List.length done) + List.length before) by lia.
    exact E.
Qed.

(** X21.  A comma token that the loop reaches with no prefix pending,
    after the tokens [before] of the array.  These tokens
    are then in the array as the splice left them: a value is as it was, or
    behind a comma (or behind the prefix pending when the call began).  Let
    the keyword be the last of them of a reserved kind, with the value it
    has then.  Inside an inline block, or when the value of the keyword
    matches LIMIT, the buffer is trimmed, the comma and one space are
    appended and nothing is pending afterwards; otherwise the buffer is
    trimmed, a new line is started and the comma is pending. *)
Theorem comma_in_stream (before after : list Token) (comma : Token) (f : Formatter) :
  isComma comma = true ->
  let tokens := (before ++ comma :: after)%list in
  let n := List.length before in
  let reached := forEachFrom n 0 tokens (f, EmptyString) in
  let f1 := fst (snd reached) in
  let q1 := snd (snd reached) in
  let seen := firstn n (fst reached) in
  let keyword := lastReservedOr (previousReservedWord f) seen in
  let limit :=
    match keyword with Some t => matchesLIMIT (value t) | None => false end in
  let r := snd (forEachFrom (S n) 0 tokens (f, EmptyString)) in
  nextLinePrepend f1 = EmptyString ->
  Forall2 (touched (nextLinePrepend f)) before seen
  /\ (isActive (inlineBlock f1) = true \/ limit = true ->
       snd r = trimEnd q1 ++ "," ++ " " /\
       nextLinePrepend (fst r) = EmptyString)
  /\ (isActive (inlineBlock f1) = false -> limit = false ->
       snd r = trimEnd q1 ++ nl ++ getIndent (indentation (fst r)) /\
       nextLinePrepend (fst r) = ",").
Proof.
  intros Hc tokens n reached f1 q1 seen keyword limit r Hp.
  destruct (forEachFrom_prefix (nextLinePrepend f) before [] (comma :: after)
              (f, EmptyString)) as (b' & st' & E & L & F & P).
  { right. right. reflexivity. }
  cbn [List.length app fst] in E, P.
  assert (Er : reached = ((b' ++ comma :: after)%list, st')) by exact E.
  assert (Es : seen = b').
  { unfold seen. rewrite Er. cbn [fst]. unfold n. rewrite <- L.
    rewrite firstn_app, Nat.sub_diag, firstn_all. cbn [firstn]. apply app_nil_r. }
  assert (Ek : previousReservedWord f1 = keyword).
  { unfold f1, keyword. rewrite Es, Er. exact P. }
  assert (Hr : r = snd (callback (fst reached) n comma (f1, q1))).
  { pose proof (forEachFrom_next before [] after comma (f, EmptyString)) as N.
    cbn [List.length app Nat.add] in N. cbv zeta in N.
    fold tokens n in N. fold reached in N.
    unfold r. rewrite N. unfold f1, q1. rewrite Er. cbn [fst snd].
    unfold n. rewrite <- L, tokenAt_middle. now destruct st'. }
  destruct (nothing_pending f1 comma Hp) as [S1 S2].
  pose proof (comma_branch (fst reached) n comma q1 f1) as B.
  rewrite S1, S2 in B. specialize (B Hc). cbv zeta in B.
  rewrite <- Hr in B. unfold previousIsLimit in B. rewrite Ek in B.
  fold limit in B. rewrite Hp in B.
  split; [now rewrite Es | exact B].
Qed.

End Steps.

(** C3 at [a,,b] and at [a, LIMIT 1, 2].  The second comma of [a,,b] is
    reached outside an inline block and a LIMIT clause, with a comma
    pending: the splice makes its value two commas, the comparison with a
    comma fails, and the token is appended with a space behind it on the
    line the first comma started; no line is started and nothing is pending.
    In [a, LIMIT 1, 2] the last reserved word before the second comma is
    LIMIT, yet that comma starts a new line: the keyword was recorded with
    the first comma in front of its value, which the test for LIMIT does
    not match. *)
Lemma comma_after_comma :
  let f := SpecModel.formatter None None in
  let tokens := [Sample.word "a"; Sample.comma; Sample.comma; Sample.word "b"] in
  let r2 := snd (forEachFrom 2 0 tokens (f, EmptyString)) in
  let r3 := snd (forEachFrom 3 0 tokens (f, EmptyString)) in
  let LIMIT := mkToken RESERVED_TOPLEVEL "LIMIT" in
  let tokens' := [Sample.word "a"; Sample.comma; Sample.ws; LIMIT; Sample.ws;
                  Sample.word "1"; Sample.comma; Sample.ws; Sample.word "2"] in
  let s6 := snd (forEachFrom 6 0 tokens' (f, EmptyString)) in
  let s7 := snd (forEachFrom 7 0 tokens' (f, EmptyString)) in
  (tokenAt tokens 2 = Some Sample.comma /\
   isActive (inlineBlock (fst r2)) = false /\ previousIsLimit (fst r2) = false /\
   snd r2 = "a" ++ nl /\ nextLinePrepend (fst r2) = "," /\
   snd r3 = "a" ++ nl ++ ",, " /\ nextLinePrepend (fst r3) = EmptyString /\
   Sample.buffer tokens f = "a" ++ nl ++ ",, b ")
  /\
  (tokenAt tokens' 6 = Some Sample.comma /\
   lastReservedOr None (firstn 6 tokens') = Some LIMIT /\
   matchesLIMIT (value LIMIT) = true /\
   previousReservedWord (fst s6) = Some (mkToken RESERVED_TOPLEVEL ",LIMIT") /\
   snd s6 = "a" ++ nl ++ ",LIMIT" ++ nl ++ "  1 " /\
   nextLinePrepend (fst s6) = EmptyString /\
   snd s7 = "a" ++ nl ++ ",LIMIT" ++ nl ++ "  1" ++ nl ++ "  " /\
   nextLinePrepend (fst s7) = "," /\
   Sample.buffer tokens' f = "a" ++ nl ++ ",LIMIT" ++ nl ++ "  1" ++ nl ++ "  ,2 ").
Proof. vm_compute. repeat split. Qed.

(** C6, as the spec has it, fails: the token after a comma that starts a
    new line comes back with the comma in front of its value. *)
Lemma tokens_not_read_only :
  let tokens := [mkToken OTHER "a"; mkToken PUNCTUATION ","; mkToken OTHER "b"] in
  fst (getFormattedQueryFromTokens tokens (SpecModel.formatter None None))
  = [mkToken OTHER "a"; mkToken PUNCTUATION ","; mkToken OTHER ",b"]
  /\ fst (getFormattedQueryFromTokens tokens (SpecModel.formatter None None)) <> tokens.
Proof. vm_compute. split; [reflexivity | discriminate]. Qed.

(** ** Calling [format] again on the same instance *)

Section Reuse.

Context {IB : InlineBlockDetector} {PR : PlaceholderResolver}.

Lemma sameSetup_refl (f : Formatter) : sameSetup f f.
Proof. repeat split. Qed.

Lemma sameSetup_trans (f g h : Formatter) :
  sameSetup f g -> sameSetup g h -> sameSetup f h.
Proof.
  unfold sameSetup. intros (A & B & C & D & E) (A' & B' & C' & D' & E').
  repeat split; congruence.
Qed.

Lemma afterSplice_sameSetup (f : Formatter) (token : Token) :
  sameSetup f (afterSplice f token).
Proof. unfold afterSplice. destruct (splices f token); repeat split. Qed.

Lemma dispatch_sameSetup (tokens : list Token) (index : nat) (token : Token)
    (q : string) (f : Formatter) :
  sameSetup f (fst (dispatch tokens index token q f)).
Proof.
  unfold_step. destruct (type token); simpl; break_ifs; repeat split.
Qed.

Lemma run_sameSetup (rest done : list Token) (st : Result) :
  sameSetup (fst st) (fst (snd (run done rest st))).
Proof.
  revert done st. induction rest as [|token rest IH]; intros done st.
  - apply sameSetup_refl.
  - cbn [run]. eapply sameSetup_trans; [|apply IH].
    eapply sameSetup_trans; [apply (afterSplice_sameSetup _ token)|].
    apply dispatch_sameSetup.
Qed.

Lemma spliced_sim (f g : Formatter) (token : Token) :
  sameButPrevious f g -> spliced f token = spliced g token.
Proof.
  intros (_ & _ & _ & _ & _ & E & _). unfold spliced, splices. now rewrite E.
Qed.

Lemma afterSplice_sim (f g : Formatter) (token : Token) :
  sameButPrevious f g -> sameButPrevious (afterSplice f token) (afterSplice g token).
Proof.
  intros H. pose proof H as (A & B & C & D & E & F & G & I).
  unfold afterSplice, splices. rewrite F.
  destruct (_ && _); [|exact H].
  unfold sameButPrevious, previousIsLimit in *. simpl. tauto.
Qed.

Lemma dispatch_sim (tokens : list Token) (index : nat) (token : Token)
    (q : string) (f g : Formatter) :
  sameButPrevious f g ->
  snd (dispatch tokens index token q f) = snd (dispatch tokens index token q g) /\
  sameButPrevious (fst (dispatch tokens index token q f))
                  (fst (dispatch tokens index token q g)).
Proof.
  destruct f as [c i b p tz prevF nlp mx], g as [c' i' b' p' tz' prevG nlp' mx'].
  unfold sameButPrevious, previousIsLimit. simpl.
  intros (A & B & C & D & E & F & G & I). subst c' i' b' p' tz' nlp' mx'.
  unfold_step. unfold formatPlaceholder, previousIsLimit.
  destruct (type token); simpl; try rewrite I; break_ifs; simpl; tauto.
Qed.

Lemma run_sim (rest done : list Token) (q : string) (f g : Formatter) :
  sameButPrevious f g ->
  snd (snd (run done rest (f, q))) = snd (snd (run done rest (g, q))).
Proof.
  revert done q f g. induction rest as [|token rest IH]; intros done q f g H.
  - reflexivity.
  - cbn [run fst snd]. rewrite <- (spliced_sim f g token H).
    pose proof (afterSplice_sim f g token H) as H'.
    destruct (dispatch_sim (done ++ spliced f token :: rest)%list (List.length done)
                (spliced f token) q _ _ H') as [Eq Hs].
    destruct (dispatch _ _ _ q (afterSplice f token)) as [f1 q1].
    destruct (dispatch _ _ _ q (afterSplice g token)) as [g1 q2].
    simpl in Eq, Hs. subst q2. now apply IH.
Qed.

Lemma format_run (f : Formatter) (query : string) :
  format f query =
  (fst (snd (run [] (tokenizer f query) (f, EmptyString))),
   trim (snd (snd (run [] (tokenizer f query) (f, EmptyString))))).
Proof.
  unfold format. rewrite getFormattedQueryFromTokens_run.
  destruct (run _ _ _) as [ts [f' q']]. reflexivity.
Qed.

(** C7, as the code has it.  [format] starts from the state the previous
    call left.  When that call left every counter at zero, the inline-block
    detector in its initial state, no pending prefix and a previous
    reserved word that does not match LIMIT, the next call returns what a
    fresh formatter with the same configuration and tokenizer returns. *)
Theorem reuse_like_fresh (c : Cfg) (tz : string -> list Token) (q1 q2 : string) :
  let f1 := fst (format (new_Formatter c tz) q1) in
  countersAtZero (indentation f1) ->
  inlineBlock f1 = new_InlineBlock ->
  nextLinePrepend f1 = EmptyString ->
  previousIsLimit f1 = false ->
  snd (format f1 q2) = snd (format (new_Formatter c tz) q2).
Proof.
  intros f1 (Z1 & Z2 & Z3 & Z4) Hb Hp Hl.
  assert (S : sameSetup (new_Formatter c tz) f1).
  { unfold f1. rewrite format_run. apply (run_sameSetup _ [] (_, _)). }
  clearbody f1. destruct S as (S1 & S2 & S3 & S4 & S5).
  assert (R : sameButPrevious f1 (new_Formatter c tz)).
  { unfold sameButPrevious. rewrite Hb, Hp, Hl, <- S1, <- S2, <- S3, <- S4.
    repeat split.
    destruct (indentation f1) as [u a b d e]. simpl in *. subst.
    reflexivity. }
  rewrite !format_run. simpl.
  assert (T : tokenizer f1 = tz) by (symmetry; exact S3).
  rewrite T. f_equal. cbn [tokenizer new_Formatter]. now apply run_sim.
Qed.

End Reuse.

(** C7, as the spec has it, fails: the pending prefix, like the rest of the
    state, lives in the instance and is not reset by [format]. *)
Lemma state_survives_format :
  let f := SpecModel.formatter None None in
  snd (format (fst (format f "a,")) "b") = ",b" /\
  snd (format f "b") = "b" /\
  snd (format (fst (format f "a,")) "b") <> snd (format f "b").
Proof. vm_compute. repeat split. discriminate. Qed.

(** [reuse_like_fresh] after a call that leaves the state as it found it. *)
Lemma reuse_like_fresh_witness :
  let f := SpecModel.formatter None None in
  let f1 := fst (format f "a AS b") in
  (countersAtZero (indentation f1) /\ inlineBlock f1 = new_InlineBlock /\
   nextLinePrepend f1 = EmptyString /\ previousIsLimit f1 = false) /\
  snd (format f1 "c, d") = snd (format f "c, d").
Proof.
  assert (H : let f1 := fst (format (SpecModel.formatter None None) "a AS b") in
              countersAtZero (indentation f1) /\ inlineBlock f1 = new_InlineBlock /\
              nextLinePrepend f1 = EmptyString /\ previousIsLimit f1 = false)
    by (vm_compute; repeat split).
  split; [exact H|].
  destruct H as (H1 & H2 & H3 & H4).
  exact (@reuse_like_fresh SpecModel.inlineBlock SpecModel.params
           (@mkCfg SpecModel.params None None None)
           SpecModel.tokenize "a AS b" "c, d" H1 H2 H3 H4).
Defined.

(** ** Lines of the output *)

Module LineFacts.

Lemma NL_isWhitespace (c : ascii) : Ascii.eqb c NL = true -> isWhitespace c = true.
Proof. intros H. apply Ascii.eqb_eq in H. subst c. reflexivity. Qed.

Lemma isBlank_isWhitespace (c : ascii) : isBlank c = true -> isWhitespace c = true.
Proof.
  unfold isBlank. intros H. apply orb_true_iff in H.
  destruct H as [H | H]; apply Ascii.eqb_eq in H; subst c; reflexivity.
Qed.

Lemma hasNewline_append (a b : string) :
  hasNewline (a ++ b) = hasNewline a || hasNewline b.
Proof.
  induction a as [|c a IH]; simpl; [reflexivity|].
  now rewrite IH, orb_assoc.
Qed.

Lemma hasNewline_repeat (s : string) (n : nat) :
  hasNewline s = false -> hasNewline (Str.repeat s n) = false.
Proof.
  intros H. induction n as [|n IH]; simpl; [reflexivity|].
  now rewrite hasNewline_append, H, IH.
Qed.

Lemma hasNewline_collapseWhitespace (s : string) :
  hasNewline (collapseWhitespace s) = false.
Proof.
  induction s as [|c s IH]; [reflexivity|].
  cbn [collapseWhitespace].
  destruct (isWhitespace c) eqn:W.
  - destruct s as [|d s]; [reflexivity|].
    destruct (isWhitespace d); [exact IH|].
    cbn [hasNewline]. now rewrite IH.
  - cbn [hasNewline]. rewrite IH.
    destruct (Ascii.eqb c NL) eqn:E; [|reflexivity].
    apply NL_isWhitespace in E. congruence.
Qed.

Lemma replaceNewlines_none (r s : string) :
  hasNewline s = false -> replaceNewlines r s = s.
Proof.
  unfold replaceNewlines. generalize EmptyString as before.
  induction s as [|c s IH]; intros before; simpl; [reflexivity|].
  intros H. apply orb_false_iff in H. destruct H as [H1 H2].
  now rewrite H1, IH.
Qed.

Lemma startsWithNL_append (a b : string) :
  startsWithNL (a ++ b) = if isEmpty a then startsWithNL b else startsWithNL a.
Proof. destruct a; reflexivity. Qed.

Lemma endsWithBlank_cons (c : ascii) (s : string) :
  endsWithBlank (String c s) = if isEmpty s then isBlank c else endsWithBlank s.
Proof. destruct s; reflexivity. Qed.

Lemma tidy_append (a b : string) :
  tidy (a ++ b) = tidy a && tidy b && negb (endsWithBlank a && startsWithNL b).
Proof.
  induction a as [|c a IH].
  - simpl. now rewrite andb_true_r.
  - cbn [append tidy]. rewrite IH, startsWithNL_append, endsWithBlank_cons.
    destruct a as [|d a]; simpl.
    + destruct (isBlank c), (startsWithNL b), (tidy b); reflexivity.
    + destruct (isBlank c && Ascii.eqb d NL); simpl; reflexivity.
Qed.

Lemma tidy_no_newline (s : string) : hasNewline s = false -> tidy s = true.
Proof.
  induction s as [|c s IH]; simpl; [reflexivity|].
  intros H. apply orb_false_iff in H. destruct H as [_ H].
  rewrite (IH H). destruct s as [|d s]; simpl.
  - now rewrite andb_false_r.
  - simpl in H. apply orb_false_iff in H. destruct H as [H _].
    now rewrite H, andb_false_r.
Qed.

Lemma startsWithNL_no_newline (s : string) :
  hasNewline s = false -> startsWithNL s = false.
Proof.
  destruct s; simpl; [reflexivity|]. intros H.
  apply orb_false_iff in H. tauto.
Qed.

Lemma tidy_trimEnd (s : string) : tidy s = true -> tidy (trimEnd s) = true.
Proof.
  destruct (trimEnd_decompose s) as [w [E _]].
  intros H. rewrite E, tidy_append in H.
  apply andb_true_iff in H. destruct H as [H _].
  apply andb_true_iff in H. tauto.
Qed.

Lemma endsWithBlank_trimEnd (s : string) : endsWithBlank (trimEnd s) = false.
Proof.
  pose proof (trimEnd_not_ws s) as H.
  unfold endsWithWhitespace, endsWithBlank in *.
  destruct (lastChar (trimEnd s)) as [c|]; [|reflexivity].
  destruct (isBlank c) eqn:B; [|reflexivity].
  apply isBlank_isWhitespace in B. congruence.
Qed.

(** Appending text that holds no line feed. *)
Lemma tidy_emit (q s : string) :
  tidy q = true -> hasNewline s = false -> tidy (q ++ s) = true.
Proof.
  intros Hq Hs. rewrite tidy_append, Hq, (tidy_no_newline s Hs),
    (startsWithNL_no_newline s Hs), andb_false_r. reflexivity.
Qed.

(** Starting a new line after trimming. *)
Lemma tidy_newline (q ind : string) :
  tidy q = true -> hasNewline ind = false -> tidy (trimEnd q ++ nl ++ ind) = true.
Proof.
  intros Hq Hi. rewrite tidy_append, (tidy_trimEnd q Hq), endsWithBlank_trimEnd.
  simpl. rewrite (tidy_no_newline ind Hi). reflexivity.
Qed.

Lemma tidy_trimStart (s : string) : tidy s = true -> tidy (trimStart s) = true.
Proof.
  induction s as [|c s IH]; simpl; [reflexivity|].
  intros H. destruct (isWhitespace c); [|exact H].
  apply andb_true_iff in H. apply IH. tauto.
Qed.

Lemma split_nonempty (c : ascii) (s : string) : split c s <> [].
Proof.
  destruct s as [|d s]; simpl; [discriminate|].
  destruct (Ascii.eqb d c); [discriminate|].
  destruct (split c s); discriminate.
Qed.

Lemma tidy_lines (s : string) :
  tidy s = true -> endsWithBlank s = false -> noTrailingBlank s = true.
Proof.
  unfold noTrailingBlank.
  induction s as [|c s IH]; [reflexivity|].
  cbn [tidy split]. rewrite endsWithBlank_cons. intros Ht He.
  apply andb_true_iff in Ht. destruct Ht as [Hc Ht].
  destruct (Ascii.eqb c NL) eqn:E.
  - cbn [forallb]. simpl.
    apply IH; [exact Ht|].
    destruct s; [reflexivity | exact He].
  - destruct s as [|d s].
    + cbn [isEmpty] in He. cbn [split forallb]. unfold endsWithBlank. cbn [lastChar].
      now rewrite He.
    + simpl in He. specialize (IH Ht He).
      destruct (split NL (String d s)) as [|l ls] eqn:S;
        [now apply split_nonempty in S|].
      cbn [forallb] in *. apply andb_true_iff in IH. destruct IH as [Hl Hls].
      rewrite Hls, andb_true_r.
      rewrite endsWithBlank_cons.
      destruct l as [|x l]; [|exact Hl].
      simpl. cbn [split] in S.
      destruct (Ascii.eqb d NL) eqn:D.
      * simpl in Hc. rewrite D, andb_true_r in Hc. exact Hc.
      * destruct (split NL s); discriminate S.
Qed.

Lemma trim_no_edge_whitespace (s : string) :
  startsWithWhitespace (trim s) = false /\ endsWithWhitespace (trim s) = false.
Proof.
  unfold trim. split; [|apply trimEnd_not_ws].
  induction s as [|c s IH]; [reflexivity|].
  cbn [trimStart]. destruct (isWhitespace c) eqn:W; [exact IH|].
  rewrite trimEnd_cons, W, andb_false_r. simpl. exact W.
Qed.

Lemma trim_lines (s : string) : tidy s = true -> noTrailingBlank (trim s) = true.
Proof.
  intros H. apply tidy_lines.
  - unfold trim. now apply tidy_trimEnd, tidy_trimStart.
  - apply endsWithBlank_trimEnd.
Qed.

End LineFacts.

Import LineFacts.

Section Lines.

Context {IB : InlineBlockDetector} {PR : PlaceholderResolver}.

Lemma hasNewline_append_false (a b : string) :
  hasNewline a = false -> hasNewline b = false -> hasNewline (a ++ b) = false.
Proof. intros Ha Hb. now rewrite hasNewline_append, Ha, Hb. Qed.

Lemma hasNewline_getIndent (i : Indentation) :
  hasNewline (indent i) = false -> hasNewline (getIndent i) = false.
Proof. apply hasNewline_repeat. Qed.

Lemma tidy_addNewline (f : Formatter) (q : string) :
  tidy q = true -> hasNewline (indent (indentation f)) = false ->
  tidy (addNewline f q) = true.
Proof.
  intros Hq Hi. unfold addNewline. apply tidy_newline; [exact Hq|].
  now apply hasNewline_getIndent.
Qed.

Lemma endsWithBlank_append (a b : string) :
  endsWithBlank (a ++ b) = if isEmpty b then endsWithBlank a else endsWithBlank b.
Proof.
  induction a as [|c a IH]; simpl.
  - destruct b; reflexivity.
  - rewrite !endsWithBlank_cons, IH.
    destruct b as [|d b]; simpl.
    + now rewrite append_nil_r.
    + destruct a; reflexivity.
Qed.

Lemma tidy_semicolon (q : string) :
  tidy q = true -> tidy ((trimEnd q ++ ";") ++ nl ++ nl) = true.
Proof.
  intros Hq. rewrite tidy_append, endsWithBlank_append. simpl.
  rewrite !andb_true_r. apply tidy_emit; [now apply tidy_trimEnd | reflexivity].
Qed.

Lemma valueAt_middle (done rest : list Token) (t : Token) :
  valueAt (done ++ t :: rest) (List.length done) = value t.
Proof. unfold valueAt. now rewrite tokenAt_middle. Qed.

Create HintDb tidy.

#[local] Hint Resolve tidy_emit tidy_addNewline tidy_trimEnd hasNewline_append_false
  hasNewline_getIndent hasNewline_collapseWhitespace : tidy.

(** One step keeps the buffer tidy when the token's text holds no line
    feed. *)
Lemma dispatch_tidy (tokens : list Token) (index : nat) (token : Token)
    (q : string) (f : Formatter) :
  valueAt tokens index = value token ->
  hasNewline (emittedText (params f) token) = false ->
  hasNewline (indent (indentation f)) = false ->
  tidy q = true ->
  tidy (snd (dispatch tokens index token q f)) = true.
Proof.
  intros Hv Ht Hi Hq. unfold emittedText, equalizeWhitespace in Ht.
  unfold_step. unfold formatPlaceholder, formatWithSpaces, formatWithSpaceAfter,
    formatWithoutSpaces, indentComment, equalizeWhitespace.
  rewrite Hv.
  destruct (type token); simpl;
    try rewrite (replaceNewlines_none _ _ Ht);
    try destruct (previousTokenAt tokens index);
    try (break_ifs; auto 8 with tidy; fail);
    (destruct (String.eqb_spec (value token) ";") as [E|]; break_ifs;
     try rewrite E; auto 8 using tidy_semicolon with tidy).
Qed.

Lemma spliced_cases (f : Formatter) (token : Token) :
  pendingIn EmptyString f ->
  spliced f token = token \/ spliced f token = afterComma token.
Proof.
  intros Hp. unfold spliced, splices.
  destruct Hp as [Hp | [Hp | Hp]]; rewrite Hp; simpl; auto.
  destruct (isTrivia (type token)); simpl; auto.
Qed.

Lemma afterSplice_params (f : Formatter) (token : Token) :
  params (afterSplice f token) = params f.
Proof. unfold afterSplice. destruct (splices f token); reflexivity. Qed.

Lemma run_tidy (rest done : list Token) (st : Result) :
  pendingIn EmptyString (fst st) ->
  hasNewline (indent (indentation (fst st))) = false ->
  tidy (snd st) = true ->
  forallb (oneLine (params (fst st))) rest = true ->
  tidy (snd (snd (run done rest st))) = true.
Proof.
  revert done st. induction rest as [|token rest IH]; intros done st Hp Hi Hq Hl.
  - exact Hq.
  - cbn [run]. cbn [forallb] in Hl. apply andb_true_iff in Hl. destruct Hl as [Ht Hl].
    set (f0 := afterSplice (fst st) token).
    set (token' := spliced (fst st) token).
    pose proof (dispatch_sameSetup (done ++ token' :: rest)%list (List.length done)
                  token' (snd st) f0) as (_ & Sp & _ & _ & Si).
    apply IH.
    + apply dispatch_pendingIn. now apply afterSplice_pendingIn.
    + rewrite <- Si. unfold f0. now rewrite afterSplice_indentation.
    + apply dispatch_tidy.
      * apply valueAt_middle.
      * unfold f0. rewrite afterSplice_params.
        unfold oneLine in Ht. apply andb_true_iff in Ht. destruct Ht as [H1 H2].
        apply negb_true_iff in H1, H2.
        unfold token'. destruct (spliced_cases (fst st) token Hp) as [E | E];
          rewrite E; assumption.
      * unfold f0. now rewrite afterSplice_indentation.
      * exact Hq.
    + rewrite <- Sp. unfold f0. now rewrite afterSplice_params.
Qed.

(** C5, as the code has it.  The string [format] returns neither starts nor
    ends with whitespace; and when the indent unit holds no line feed and
    no token puts one into the output (no comment, literal or resolved
    placeholder with a line break), no line of it ends with a space or a
    tab. *)
Theorem format_output_shape (c : Cfg) (tz : string -> list Token) (query : string) :
  let out := snd (format (new_Formatter c tz) query) in
  startsWithWhitespace out = false /\
  endsWithWhitespace out = false /\
  (hasNewline (indent (new_Indentation (cfg_indent c))) = false ->
   forallb (oneLine (cfg_params c)) (tz query) = true ->
   noTrailingBlank out = true).
Proof.
  intros out. unfold out. rewrite format_run. cbn [snd tokenizer new_Formatter].
  split; [apply trim_no_edge_whitespace|].
  split; [apply trim_no_edge_whitespace|].
  intros Hi Hl. apply trim_lines. apply run_tidy.
  - left. reflexivity.
  - exact Hi.
  - reflexivity.
  - exact Hl.
Qed.

End Lines.

(** C5, as the spec has it, fails: the value of a block comment is emitted
    as it is, and a space before a line feed inside it ends a line of the
    returned string. *)
Lemma comment_line_keeps_trailing_blank :
  let out := SpecModel.formatString ("/* a " ++ nl ++ " b */") in
  out = "/* a " ++ nl ++ " b */" /\
  noTrailingBlank out = false.
Proof. vm_compute. split; reflexivity. Qed.

(** An empty line of a block comment is reindented like the others. *)
Example reindented_empty_comment_line :
  SpecModel.formatString ("SELECT /*" ++ nl ++ nl ++ "*/")
  = "SELECT" ++ nl ++ "  /*" ++ nl ++ "  " ++ nl ++ "  */".
Proof. vm_compute. reflexivity. Qed.

(** [format_output_shape] on a query whose tokens hold no line feed. *)
Lemma format_output_shape_witness :
  let c := @mkCfg SpecModel.params None None None in
  let query := "SELECT a, b FROM t WHERE c = ?" in
  (hasNewline (indent (new_Indentation (cfg_indent c))) = false /\
   forallb (oneLine (cfg_params c)) (SpecModel.tokenize query) = true) /\
  noTrailingBlank (snd (format (SpecModel.formatter None None) query)) = true.
Proof.
  assert (H : hasNewline (indent (new_Indentation None)) = false /\
              forallb (oneLine (None : @Params SpecModel.params))
                (SpecModel.tokenize "SELECT a, b FROM t WHERE c = ?") = true)
    by (vm_compute; split; reflexivity).
  split; [exact H|].
  destruct H as [H1 H2].
  exact (proj2 (proj2 (@format_output_shape SpecModel.inlineBlock SpecModel.params
                         (@mkCfg SpecModel.params None None None)
                         SpecModel.tokenize "SELECT a, b FROM t WHERE c = ?")) H1 H2).
Defined.

(** ** Token texts in the output *)

Module OrderFacts.

Lemma occurs_append_r (vs : list string) (q s : string) :
  occursInOrder vs q -> occursInOrder vs (q ++ s).
Proof.
  revert q. induction vs as [|v vs IH]; intros q; simpl; [trivial|].
  intros (pre & rest & E & H). exists pre, (rest ++ s). split.
  - subst q. now rewrite !append_assoc.
  - now apply IH.
Qed.

Lemma occurs_app (us vs : list string) (a b : string) :
  occursInOrder us a -> occursInOrder vs b -> occursInOrder (us ++ vs) (a ++ b).
Proof.
  revert a. induction us as [|u us IH]; intros a; simpl.
  - intros _ H. destruct vs as [|v vs]; [exact I|].
    simpl in *. destruct H as (pre & rest & E & H).
    exists (a ++ pre), rest. split; [|exact H].
    subst b. now rewrite !append_assoc.
  - intros (pre & rest & E & H) Hb. exists pre, (rest ++ b). split.
    + subst a. now rewrite !append_assoc.
    + now apply IH.
Qed.

Lemma occurs_single (v post : string) : occursInOrder [v] (v ++ post).
Proof. exists EmptyString, post. split; [reflexivity | exact I]. Qed.

Lemma occurs_emit_post (vs : list string) (q v post : string) :
  occursInOrder vs q -> occursInOrder (vs ++ [v]) (q ++ v ++ post).
Proof. intros H. apply occurs_app; [exact H | apply occurs_single]. Qed.

Lemma occurs_emit (vs : list string) (q v : string) :
  occursInOrder vs q -> occursInOrder (vs ++ [v]) (q ++ v).
Proof.
  intros H. rewrite <- (append_nil_r v) at 2. now apply occurs_emit_post.
Qed.

(** A text that was emitted in one piece holds its two halves in order. *)
Lemma occurs_split (vs : list string) (p v q : string) :
  occursInOrder (vs ++ [p ++ v]) q -> occursInOrder (vs ++ [p; v]) q.
Proof.
  revert q. induction vs as [|u vs IH]; intros q; simpl.
  - intros (pre & rest & E & _). exists pre, (v ++ rest). split.
    + subst q. now rewrite !append_assoc.
    + exists EmptyString, rest. split; [reflexivity | exact I].
  - intros (pre & rest & E & H). exists pre, rest. split; [exact E|].
    now apply IH.
Qed.

Lemma endsWithWhitespace_trimEnd_empty (v : string) :
  endsWithWhitespace v = false -> trimEnd v = EmptyString -> v = EmptyString.
Proof. intros H E. rewrite (trimEnd_fixed v H) in E. exact E. Qed.

Lemma occurs_trimEnd (vs : list string) (q : string) :
  solidTexts vs -> occursInOrder vs q -> occursInOrder vs (trimEnd q).
Proof.
  intros Hs. revert q. induction Hs as [|v vs Hv Hs IH]; intros q; simpl; [trivial|].
  intros (pre & rest & E & H). subst q.
  specialize (IH rest H).
  rewrite trimEnd_append.
  destruct (trimEnd (v ++ rest)) as [|c t] eqn:Et; cbn [isEmpty].
  - (* everything from [v] on is whitespace: [v] is empty *)
    rewrite trimEnd_append in Et.
    destruct (trimEnd rest) as [|c t] eqn:Er; cbn [isEmpty] in Et.
    + apply (endsWithWhitespace_trimEnd_empty v Hv) in Et. subst v.
      exists (trimEnd pre), EmptyString. split; [now rewrite append_nil_r | exact IH].
    + apply append_empty in Et. destruct Et as [_ Et]. discriminate Et.
  - rewrite <- Et. rewrite trimEnd_append.
    destruct (trimEnd rest) as [|d u] eqn:Er; cbn [isEmpty].
    + exists pre, EmptyString. split; [|exact IH].
      now rewrite (trimEnd_fixed v Hv), append_nil_r.
    + exists pre, (String d u). split; [reflexivity | exact IH].
Qed.

Lemma solidTexts_snoc (vs : list string) (v : string) :
  solidTexts vs -> endsWithWhitespace v = false -> solidTexts (vs ++ [v]).
Proof. intros H Hv. apply Forall_app. split; [exact H | now constructor]. Qed.

Lemma hasChar_append (c : ascii) (a b : string) :
  hasChar c (a ++ b) = hasChar c a || hasChar c b.
Proof.
  induction a as [|d a IH]; simpl; [reflexivity|]. now rewrite IH, orb_assoc.
Qed.

Lemma occurs_hasChar (c : ascii) (v : string) (vs : list string) (s : string) :
  occursInOrder vs s -> In v vs -> hasChar c v = true -> hasChar c s = true.
Proof.
  revert s. induction vs as [|u vs IH]; intros s; simpl; [tauto|].
  intros (pre & rest & E & H) [Hin | Hin] Hc; subst s; rewrite !hasChar_append.
  - subst u. rewrite Hc. now rewrite orb_true_r.
  - rewrite (IH rest H Hin Hc). now rewrite !orb_true_r.
Qed.

End OrderFacts.

Import OrderFacts.

Section Order.

Context {IB : InlineBlockDetector} {PR : PlaceholderResolver}.

Ltac occurs_step H :=
  first
    [ exact H
    | apply occurs_emit_post
    | apply occurs_emit
    | apply occurs_trimEnd;
      [ first [assumption | apply solidTexts_snoc; assumption] | ]
    | apply occurs_append_r ].

Ltac occurs_from H := unfold addNewline; repeat occurs_step H.

(** One step either emits the text of the token behind the texts emitted
    so far, or it is a comma that is kept pending. *)
Lemma dispatch_occurs (tokens : list Token) (index : nat) (token : Token)
    (q : string) (f : Formatter) (vs : list string) :
  valueAt tokens index = value token ->
  solidTexts vs ->
  solidToken token = true ->
  occursInOrder vs q ->
  let r := dispatch tokens index token q f in
  (occursInOrder (vs ++ expectedText token) (snd r) /\
   nextLinePrepend (fst r) = nextLinePrepend f)
  \/ (isComma token = true /\ nextLinePrepend (fst r) = "," /\
      occursInOrder vs (snd r)).
Proof.
  intros Hv Hvs Ht H r. unfold r. clear r.
  unfold solidToken, expectedText, isComma, solidText in *.
  unfold_step. unfold formatPlaceholder, formatWithSpaces, formatWithSpaceAfter,
    formatWithoutSpaces, indentComment.
  rewrite Hv.
  destruct (type token) eqn:Ety; cbn [forallb] in Ht; simpl;
    try rewrite app_nil_r;
    try (apply andb_true_iff in Ht; destruct Ht as [Ht _];
         apply andb_true_iff in Ht; destruct Ht as [_ Ht];
         apply negb_true_iff in Ht).
  - left. split; [occurs_from H | reflexivity].
  - left. split; [occurs_from H | reflexivity].
  - left. split; [|reflexivity].
    destruct (hasNewline (value token)) eqn:En.
    + rewrite app_nil_r. occurs_from H.
    + rewrite (replaceNewlines_none _ _ En).
      cbn [forallb] in Ht. apply andb_true_iff in Ht. destruct Ht as [Ht _].
      apply andb_true_iff in Ht. destruct Ht as [_ Ht]. apply negb_true_iff in Ht.
      occurs_from H.
  - left. split; [occurs_from H | reflexivity].
  - left. break_ifs; (split; [occurs_from H | reflexivity]).
  - left. split; [occurs_from H | reflexivity].
  - left. break_ifs; (split; [occurs_from H | reflexivity]).
  - left. destruct (previousTokenAt tokens index); break_ifs;
      (split; [occurs_from H | reflexivity]).
  - left. break_ifs; (split; [occurs_from H | reflexivity]).
  - left. split; [occurs_from H | reflexivity].
  - destruct (String.eqb_spec (value token) ",") as [E|].
    + break_ifs.
      * left. split; [occurs_from H | reflexivity].
      * right. split; [reflexivity|]. split; [exact E | occurs_from H].
    + left. break_ifs; (split; [occurs_from H | reflexivity]).
  - destruct (String.eqb_spec (value token) ",") as [E|].
    + break_ifs.
      * left. split; [occurs_from H | reflexivity].
      * right. split; [reflexivity|]. split; [exact E | occurs_from H].
    + left. break_ifs; (split; [occurs_from H | reflexivity]).
Qed.

Lemma solidToken_texts (t : Token) :
  solidToken t = true -> solidTexts (expectedText t).
Proof.
  unfold solidToken, solidTexts. intros H.
  apply Forall_forall. intros v Hin.
  rewrite forallb_forall in H. specialize (H v Hin).
  unfold solidText in H. apply andb_true_iff in H. destruct H as [_ H].
  now apply negb_true_iff in H.
Qed.

Lemma endsWithWhitespace_cons (c : ascii) (s : string) :
  endsWithWhitespace (String c s) =
  if isEmpty s then isWhitespace c else endsWithWhitespace s.
Proof. destruct s; reflexivity. Qed.

(** A token that takes a pending comma: its text is the comma and then its
    own text, and it is not a comma itself. *)
Lemma afterComma_text (t : Token) :
  isTrivia (type t) = false -> type t <> PLACEHOLDER -> solidToken t = true ->
  exists x, expectedText t = [x] /\
            expectedText (afterComma t) = ["," ++ x] /\
            solidToken (afterComma t) = true /\
            isComma (afterComma t) = false.
Proof.
  unfold solidToken, expectedText, afterComma, isComma, equalizeWhitespace. simpl.
  intros Htr Hph Hs.
  assert (K : forall x, forallb solidText [x] = true ->
                        forallb solidText ["," ++ x] = true /\
                        String.eqb ("," ++ x) "," = false).
  { intros x Hx. cbn [forallb] in *. rewrite andb_true_r in *.
    unfold solidText in *. apply andb_true_iff in Hx. destruct Hx as [Hx1 Hx2].
    destruct x as [|c x]; [discriminate Hx1|].
    split; [|reflexivity].
    change ("," ++ String c x) with (String "," (String c x)).
    rewrite endsWithWhitespace_cons. exact Hx2. }
  destruct (type t); simpl in Htr; try discriminate Htr; try congruence;
    eexists; (split; [reflexivity|]);
    destruct (K _ Hs) as [K1 K2]; repeat split; assumption.
Qed.

Lemma isComma_text (t : Token) : isComma t = true -> expectedText t = [","].
Proof.
  unfold isComma, expectedText.
  destruct (type t); try discriminate; intros H; apply String.eqb_eq in H;
    now rewrite H.
Qed.

Lemma run_occurs (rest done : list Token) (st : Result) (vs : list string) :
  forallb solidToken rest = true ->
  commasAttach rest = true ->
  solidTexts vs ->
  occursInOrder vs (snd st) ->
  (nextLinePrepend (fst st) = EmptyString \/
   (nextLinePrepend (fst st) = "," /\ nextTakesComma rest = true)) ->
  occursInOrder
    ((vs ++ (if isEmpty (nextLinePrepend (fst st)) then [] else [","]))
     ++ expectedTexts rest)
    (snd (snd (run done rest st))).
Proof.
  revert done st vs.
  induction rest as [|token rest IH]; intros done [f q] vs Hsolid Hcm Hvs H Hp;
    cbn [fst snd] in *.
  - destruct Hp as [Hp | [_ Hp]]; [|discriminate Hp].
    rewrite Hp. simpl. now rewrite !app_nil_r.
  - cbn [forallb commasAttach] in Hsolid, Hcm.
    apply andb_true_iff in Hsolid. destruct Hsolid as [Ht Hsolid].
    apply andb_true_iff in Hcm. destruct Hcm as [Hc Hcm].
    cbn [run fst snd expectedTexts flat_map]. fold (expectedTexts rest).
    destruct Hp as [Hp | [Hp Hn]].
    + (* nothing pending: the token is dispatched as it is *)
      assert (E1 : spliced f token = token)
        by (unfold spliced, splices; now rewrite Hp).
      assert (E2 : afterSplice f token = f)
        by (unfold afterSplice, splices; now rewrite Hp).
      rewrite E1, E2, Hp. cbn [isEmpty]. rewrite app_nil_r.
      destruct (dispatch_occurs (done ++ token :: rest)%list (List.length done)
                  token q f vs (valueAt_middle _ _ _) Hvs Ht H)
        as [[Ho Hnl] | (Hic & Hnl & Ho)];
        destruct (dispatch _ _ token q f) as [f' q'] eqn:Ed; cbn [fst snd] in *.
      * rewrite Hp in Hnl.
        specialize (IH (done ++ [token])%list (f', q') (vs ++ expectedText token)%list
                      Hsolid Hcm).
        cbn [fst snd] in IH. rewrite Hnl in IH. cbn [isEmpty] in IH.
        rewrite app_nil_r in IH. rewrite app_assoc. apply IH.
        -- apply Forall_app. split; [exact Hvs | now apply solidToken_texts].
        -- exact Ho.
        -- left. reflexivity.
      * rewrite Hic in Hc.
        specialize (IH (done ++ [token])%list (f', q') vs Hsolid Hcm).
        cbn [fst snd] in IH. rewrite Hnl in IH. cbn [isEmpty] in IH.
        rewrite (isComma_text token Hic), app_assoc. apply IH.
        -- exact Hvs.
        -- exact Ho.
        -- right. split; [reflexivity | exact Hc].
    + (* a comma is pending *)
      rewrite Hp. cbn [isEmpty].
      destruct (tokenType_eqb (type token) WHITESPACE) eqn:Ews.
      * (* whitespace leaves everything as it is *)
        assert (Ety : type token = WHITESPACE)
          by (destruct (type token); try discriminate Ews; reflexivity).
        assert (E1 : spliced f token = token)
          by (unfold spliced, splices; rewrite Ety; simpl; now rewrite andb_false_r).
        assert (E2 : afterSplice f token = f)
          by (unfold afterSplice, splices; rewrite Ety; simpl; now rewrite andb_false_r).
        rewrite E1, E2.
        assert (Ed : dispatch (done ++ token :: rest)%list (List.length done) token q f
                     = (f, q)) by (unfold dispatch; now rewrite Ety).
        rewrite Ed.
        assert (Ex : expectedText token = []) by (unfold expectedText; now rewrite Ety).
        rewrite Ex. cbn [app].
        specialize (IH (done ++ [token])%list (f, q) vs Hsolid Hcm Hvs H).
        cbn [fst snd] in IH. rewrite Hp in IH. cbn [isEmpty] in IH.
        apply IH. right. split; [reflexivity|].
        cbn [nextTakesComma] in Hn. now rewrite Ety in Hn.
      * (* the next token takes the comma *)
        assert (Htr : isTrivia (type token) = false)
          by (cbn [nextTakesComma] in Hn;
              destruct (type token); try discriminate; reflexivity).
        assert (Hph : type token <> PLACEHOLDER)
          by (cbn [nextTakesComma] in Hn;
              destruct (type token); discriminate).
        destruct (afterComma_text token Htr Hph Ht) as (x & Ex & Ex' & Hs' & Hnc).
        assert (E1 : spliced f token = afterComma token)
          by (unfold spliced, splices, afterComma; now rewrite Hp, Htr).
        assert (E2 : nextLinePrepend (afterSplice f token) = EmptyString)
          by (unfold afterSplice, splices; now rewrite Hp, Htr).
        rewrite E1.
        destruct (dispatch_occurs (done ++ afterComma token :: rest)%list
                    (List.length done) (afterComma token) q (afterSplice f token) vs
                    (valueAt_middle _ _ _) Hvs Hs' H)
          as [[Ho Hnl] | (Hic & _)]; [|congruence].
        destruct (dispatch _ _ (afterComma token) q _) as [f' q'] eqn:Ed;
          cbn [fst snd] in *.
        rewrite E2 in Hnl.
        specialize (IH (done ++ [afterComma token])%list (f', q') (vs ++ [","; x])%list
                      Hsolid Hcm).
        cbn [fst snd] in IH. rewrite Hnl in IH. cbn [isEmpty] in IH.
        rewrite app_nil_r in IH. rewrite Ex.
        replace ((vs ++ [","]) ++ [x] ++ expectedTexts rest)%list
          with ((vs ++ [","; x]) ++ expectedTexts rest)%list
          by (rewrite <- !app_assoc; reflexivity).
        apply IH.
        -- apply Forall_app. split; [exact Hvs|].
           pose proof (solidToken_texts token Ht) as Hx. rewrite Ex in Hx.
           constructor; [reflexivity | exact Hx].
        -- apply occurs_split. rewrite Ex' in Ho. exact Ho.
        -- left. reflexivity.
Qed.

(** C1, as the code has it.  When no prefix is pending at the start, no
    expected text is empty or ends in whitespace, and every comma is
    followed, whitespace aside, by a token that is neither a comment nor a
    placeholder, the returned string holds the texts of the tokens in input
    order and without overlap: the value of every token that is not
    whitespace, a placeholder or a comment (a keyword of the three
    line-breaking kinds with its whitespace runs collapsed), the rewritten
    text of a line comment, and the value of a block comment without line
    feed. *)
Theorem token_texts_in_order (tokens : list Token) (f : Formatter) :
  nextLinePrepend f = EmptyString ->
  forallb solidToken tokens = true ->
  commasAttach tokens = true ->
  occursInOrder (expectedTexts tokens)
    (snd (snd (getFormattedQueryFromTokens tokens f))).
Proof.
  intros Hp Hs Hc. rewrite getFormattedQueryFromTokens_run.
  pose proof (run_occurs tokens [] (f, EmptyString) [] Hs Hc (Forall_nil _) I) as H.
  cbn [fst snd] in H. rewrite Hp in H. cbn [isEmpty app] in H.
  apply H. left. reflexivity.
Qed.

End Order.

(** C1, as the spec has it, fails: a line comment is rewritten as a block
    comment, so its value is not in the returned string. *)
Lemma line_comment_value_not_in_output :
  let tokens := [mkToken OTHER "a"; mkToken WHITESPACE " "; mkToken LINE_COMMENT "-- b"] in
  let out := snd (snd (getFormattedQueryFromTokens tokens (SpecModel.formatter None None))) in
  out = "a /* b */" ++ nl /\
  ~ occursInOrder ["a"; "-- b"] out.
Proof.
  assert (E : snd (snd (getFormattedQueryFromTokens
                 [mkToken OTHER "a"; mkToken WHITESPACE " "; mkToken LINE_COMMENT "-- b"]
                 (SpecModel.formatter None None))) = "a /* b */" ++ nl)
    by (vm_compute; reflexivity).
  cbv zeta. rewrite E. split; [reflexivity|].
  intros H.
  apply (occurs_hasChar "-" "-- b") in H;
    [discriminate H | simpl; tauto | reflexivity].
Qed.

(** [token_texts_in_order] on a select list with a comma and a line comment. *)
Lemma token_texts_in_order_witness :
  let tokens :=
    [mkToken RESERVED_TOPLEVEL "SELECT"; mkToken WHITESPACE " "; mkToken OTHER "a";
     mkToken PUNCTUATION ","; mkToken OTHER "b"; mkToken WHITESPACE " ";
     mkToken LINE_COMMENT "-- c"] in
  let f := SpecModel.formatter None None in
  (nextLinePrepend f = EmptyString /\ forallb solidToken tokens = true /\
   commasAttach tokens = true) /\
  occursInOrder ["SELECT"; "a"; ","; "b"; "/* c */"]
    (snd (snd (getFormattedQueryFromTokens tokens f))).
Proof.
  split.
  - vm_compute. repeat split.
  - exact (token_texts_in_order
             [mkToken RESERVED_TOPLEVEL "SELECT"; mkToken WHITESPACE " ";
              mkToken OTHER "a"; mkToken PUNCTUATION ","; mkToken OTHER "b";
              mkToken WHITESPACE " "; mkToken LINE_COMMENT "-- c"]
             (SpecModel.formatter None None) eq_refl eq_refl eq_refl).
Defined.

(** ** Formatting a formatted query *)

Section Reformat.

Context {IB : InlineBlockDetector} {PR : PlaceholderResolver}.

Lemma lastToken_snoc (tokens : list Token) (t : Token) :
  lastToken (tokens ++ [t]) = Some t.
Proof.
  induction tokens as [|x tokens IH]; [reflexivity|].
  cbn [app lastToken]. rewrite IH. destruct (tokens ++ [t])%list eqn:E; [|reflexivity].
  now destruct tokens.
Qed.

Lemma previousTokenAt_middle (done rest : list Token) (t : Token) :
  previousTokenAt (done ++ t :: rest) (List.length done) = lastToken done.
Proof.
  destruct done as [|x done] using rev_ind; [reflexivity|].
  rewrite lastToken_snoc, length_app, Nat.add_comm. cbn [List.length Nat.add previousTokenAt].
  rewrite <- app_assoc. apply tokenAt_middle.
Qed.

Lemma skipn_middle (done rest : list Token) (t : Token) :
  skipn (S (List.length done)) (done ++ t :: rest) = rest.
Proof.
  induction done as [|x done IH]; [reflexivity | exact IH].
Qed.

Lemma contentFrom_filter (prev : option tokenType) (tokens : list Token) :
  map snd (contentFrom prev tokens) =
  filter (fun t => negb (isWhitespaceToken t)) tokens.
Proof.
  revert prev. induction tokens as [|t tokens IH]; intros prev; [reflexivity|].
  cbn [contentFrom filter]. destruct (isWhitespaceToken t); cbn [negb map snd].
  - apply IH.
  - now rewrite IH.
Qed.

(** The step is the same in two arrays that show the callback the same
    token, the same gluing and the same answer of the detector. *)
Lemma dispatch_same (ts1 ts2 : list Token) (i1 i2 : nat) (t : Token)
    (q : string) (f : Formatter) :
  valueAt ts1 i1 = valueAt ts2 i2 ->
  (type t = OPEN_PAREN ->
   gluedAfter (option_map type (previousTokenAt ts1 i1)) =
   gluedAfter (option_map type (previousTokenAt ts2 i2)) /\
   beginIfPossible ts1 i1 (inlineBlock f) = beginIfPossible ts2 i2 (inlineBlock f)) ->
  dispatch ts1 i1 t q f = dispatch ts2 i2 t q f.
Proof.
  intros Hv Hop. unfold dispatch, formatByValue, checkMaxCharacter.
  rewrite Hv.
  destruct (type t); try reflexivity.
  destruct (Hop eq_refl) as [Hg Hb].
  unfold formatOpeningParentheses. rewrite Hv. cbn [dropMaxCharacterIndent].
  replace (inlineBlock (dropMaxCharacterIndent f)) with (inlineBlock f) by reflexivity.
  rewrite Hb.
  assert (Hq :
    match previousTokenAt ts1 i1 with
    | Some previousToken =>
        if negb (tokenType_eqb (type previousToken) WHITESPACE) &&
           negb (tokenType_eqb (type previousToken) OPEN_PAREN)
        then trimEnd q else q
    | None => q
    end =
    match previousTokenAt ts2 i2 with
    | Some previousToken =>
        if negb (tokenType_eqb (type previousToken) WHITESPACE) &&
           negb (tokenType_eqb (type previousToken) OPEN_PAREN)
        then trimEnd q else q
    | None => q
    end).
  { destruct (previousTokenAt ts1 i1) as [p1|], (previousTokenAt ts2 i2) as [p2|];
      cbn [gluedAfter option_map] in Hg; try rewrite Hg; try reflexivity.
    - now rewrite <- Hg.
  }
  rewrite Hq. reflexivity.
Qed.

Lemma isWhitespaceToken_type (t : Token) :
  isWhitespaceToken t = true -> type t = WHITESPACE.
Proof. unfold isWhitespaceToken. destruct (type t); try discriminate; reflexivity. Qed.

Lemma lastType_snoc (tokens : list Token) (t : Token) :
  lastType (tokens ++ [t]) = Some (type t).
Proof. unfold lastType. now rewrite lastToken_snoc. Qed.

(** A whitespace token changes nothing but the position. *)
Lemma run_whitespace (done rest : list Token) (t : Token) (st : Result) :
  isWhitespaceToken t = true ->
  run done (t :: rest) st = run (done ++ [t]) rest st.
Proof.
  intros Hw. apply isWhitespaceToken_type in Hw.
  destruct st as [f q]. cbn [run fst snd].
  assert (E1 : spliced f t = t)
    by (unfold spliced, splices; rewrite Hw; simpl; now rewrite andb_false_r).
  assert (E2 : afterSplice f t = f)
    by (unfold afterSplice, splices; rewrite Hw; simpl; now rewrite andb_false_r).
  rewrite E1, E2. unfold dispatch. now rewrite Hw.
Qed.

Lemma run_content (Hd : detectorIgnoresWhitespace) (rest1 : list Token) :
  forall (rest2 done1 done2 : list Token) (st : Result),
    contentFrom (lastType done1) rest1 = contentFrom (lastType done2) rest2 ->
    snd (run done1 rest1 st) = snd (run done2 rest2 st).
Proof.
  induction rest1 as [|t r1 IH1]; intros rest2.
  - (* the second array can only hold whitespace *)
    induction rest2 as [|u r2 IH2]; intros done1 done2 st Hc; [reflexivity|].
    cbn [contentFrom] in Hc.
    destruct (isWhitespaceToken u) eqn:Eu; [|discriminate Hc].
    rewrite (run_whitespace done2 r2 u st Eu).
    apply IH2. cbn [contentFrom].
    now rewrite lastType_snoc, (isWhitespaceToken_type u Eu).
  - intros done1 done2 st Hc.
    destruct (isWhitespaceToken t) eqn:Et.
    + rewrite (run_whitespace done1 r1 t st Et).
      apply IH1. cbn [contentFrom] in Hc. rewrite Et in Hc.
      now rewrite lastType_snoc, (isWhitespaceToken_type t Et).
    + revert done2 Hc.
      induction rest2 as [|u r2 IH2]; intros done2 Hc;
        cbn [contentFrom] in Hc; rewrite Et in Hc; [discriminate Hc|].
      destruct (isWhitespaceToken u) eqn:Eu.
      * rewrite (run_whitespace done2 r2 u st Eu).
        apply IH2. cbn [contentFrom]. rewrite Et.
        now rewrite lastType_snoc, (isWhitespaceToken_type u Eu).
      * injection Hc as Hflag Htok Htail. subst u.
        destruct st as [f q]. cbn [run fst snd].
        set (t' := spliced f t).
        assert (Hty : type t' = type t) by apply spliced_type.
        rewrite (dispatch_same (done1 ++ t' :: r1)%list (done2 ++ t' :: r2)%list
                   (List.length done1) (List.length done2) t' q (afterSplice f t)).
        -- apply IH1. now rewrite !lastType_snoc, Hty.
        -- now rewrite !valueAt_middle.
        -- intros Hop. rewrite Hty in Hop. rewrite Hop in Hflag. cbn in Hflag.
           rewrite !previousTokenAt_middle. split; [exact Hflag|].
           apply (Hd _ _ _ _ t').
           ++ apply tokenAt_middle.
           ++ apply tokenAt_middle.
           ++ now rewrite Hty.
           ++ rewrite !skipn_middle.
              rewrite <- (contentFrom_filter (Some (type t)) r1),
                      <- (contentFrom_filter (Some (type t)) r2).
              now rewrite Htail.
Qed.

(** C10, as the code has it.  Formatting the result again returns it
    unchanged when tokenizing the result gives the tokens of the query,
    whitespace tokens aside, with the same opening parentheses glued to the
    token before them, and the inline-block detector makes nothing of
    whitespace tokens. *)
Theorem reformat_fixed_point (c : Cfg) (tz : string -> list Token) (query : string) :
  let formatted := snd (format (new_Formatter c tz) query) in
  detectorIgnoresWhitespace ->
  content (tz formatted) = content (tz query) ->
  snd (format (new_Formatter c tz) formatted) = formatted.
Proof.
  intros formatted Hd Hc. unfold formatted at 2.
  rewrite !format_run. cbn [snd tokenizer new_Formatter]. f_equal. f_equal.
  apply (run_content Hd). exact Hc.
Qed.

End Reformat.

(** C10, as the spec has it, fails: a line comment stays on the line of the
    token before it and comes out as a block comment, which the second
    pass moves to a line of its own. *)
Lemma reformat_moves_rewritten_comment :
  let once := SpecModel.formatString "a -- b" in
  let twice := SpecModel.formatString once in
  once = "a /* b */" /\ twice = "a" ++ nl ++ "/* b */" /\ twice <> once.
Proof. vm_compute. repeat split. discriminate. Qed.

Lemma skipn_tokenAt (tokens : list Token) (index : nat) (t : Token) :
  tokenAt tokens index = Some t -> skipn index tokens = t :: skipn (S index) tokens.
Proof.
  unfold tokenAt. revert index.
  induction tokens as [|x tokens IH]; intros [|index]; simpl; try discriminate.
  - now intros [= ->].
  - intros H. now rewrite (IH index H).
Qed.

Lemma scanRegion_filter (tokens : list Token) (depth len : nat) :
  SpecModel.scanRegion depth len tokens =
  SpecModel.scanRegion depth len
    (filter (fun t => negb (isWhitespaceToken t)) tokens).
Proof.
  revert depth len. induction tokens as [|t tokens IH]; intros depth len; [reflexivity|].
  cbn [filter SpecModel.scanRegion]. unfold isWhitespaceToken.
  destruct (type t) eqn:E; cbn [tokenType_eqb negb SpecModel.scanRegion];
    rewrite ?E; try reflexivity; try apply IH.
  destruct depth; [reflexivity | apply IH].
Qed.

(** The detector modelled from the spec makes nothing of whitespace
    tokens. *)
Lemma specModel_ignores_whitespace :
  @detectorIgnoresWhitespace SpecModel.inlineBlock.
Proof.
  intros ts1 ts2 i1 i2 t b H1 H2 _ Hf.
  cbn [beginIfPossible SpecModel.inlineBlock]. unfold SpecModel.isInlineBlock.
  rewrite (skipn_tokenAt ts1 i1 t H1), (skipn_tokenAt ts2 i2 t H2).
  rewrite (scanRegion_filter (skipn (S i1) ts1)), (scanRegion_filter (skipn (S i2) ts2)).
  now rewrite Hf.
Qed.

(** [reformat_fixed_point] on a query with a comma and an inline block. *)
Lemma reformat_fixed_point_witness :
  let query := "SELECT a, COUNT(*) FROM t" in
  let formatted := snd (format (SpecModel.formatter None None) query) in
  content (SpecModel.tokenize formatted) = content (SpecModel.tokenize query) /\
  snd (format (SpecModel.formatter None None) formatted) = formatted.
Proof.
  assert (H : content (SpecModel.tokenize
                (snd (format (SpecModel.formatter None None)
                        "SELECT a, COUNT(*) FROM t")))
              = content (SpecModel.tokenize "SELECT a, COUNT(*) FROM t"))
    by (vm_compute; reflexivity).
  split; [exact H|].
  exact (@reformat_fixed_point SpecModel.inlineBlock SpecModel.params
           (@mkCfg SpecModel.params None None None) SpecModel.tokenize
           "SELECT a, COUNT(*) FROM t" specModel_ignores_whitespace H).
Defined.

(** ** The tokenizer of the examples *)

Module TokenizerFacts.

Import SpecModel.

Lemma span_spec (p : ascii -> bool) (s : string) :
  s = fst (span p s) ++ snd (span p s) /\
  String.length (snd (span p s)) <= String.length s.
Proof.
  induction s as [|c s [IH1 IH2]]; simpl; [split; [reflexivity | lia]|].
  destruct (p c); [|split; [reflexivity | simpl; lia]].
  destruct (span p s) as [a b]. simpl in *. split; [now rewrite <- IH1 | lia].
Qed.

Lemma spanLine_spec (s : string) :
  s = fst (spanLine s) ++ snd (spanLine s) /\
  String.length (snd (spanLine s)) <= String.length s.
Proof.
  induction s as [|c s [IH1 IH2]]; simpl; [split; [reflexivity | lia]|].
  destruct (Ascii.eqb c NL); [split; [reflexivity | simpl; lia]|].
  destruct (spanLine s) as [a b]. simpl in *. split; [now rewrite <- IH1 | lia].
Qed.

Lemma spanBlock_spec (s : string) :
  s = fst (spanBlock s) ++ snd (spanBlock s) /\
  String.length (snd (spanBlock s)) <= String.length s.
Proof.
  induction s as [|c s [IH1 IH2]]; [split; [reflexivity | simpl; lia]|].
  cbn [spanBlock].
  destruct (prefix "*/" (String c s)) eqn:E.
  - cbn [prefix] in E. destruct (ascii_dec "*" c) as [<-|]; [|discriminate E].
    destruct s as [|d s]; cbn [prefix] in E; [discriminate E|].
    destruct (ascii_dec "/" d) as [<-|]; [|discriminate E].
    simpl. split; [reflexivity | lia].
  - destruct (spanBlock s) as [a b]. simpl in *. split; [now rewrite <- IH1 | lia].
Qed.

Lemma tokenizeFuel_concat (fuel : nat) :
  forall s, String.length s <= fuel -> concatValues (tokenizeFuel fuel s) = s.
Proof.
  induction fuel as [|fuel IH]; intros s Hlen.
  - destruct s; [reflexivity | simpl in Hlen; lia].
  - destruct s as [|c s]; [reflexivity|].
    simpl in Hlen. cbn [tokenizeFuel].
    destruct (isWhitespace c) eqn:W.
    { cbn [span]. rewrite W.
      destruct (span_spec isWhitespace s) as [E L].
      destruct (span isWhitespace s) as [a b]. simpl in *.
      rewrite IH by lia. now rewrite <- E. }
    destruct (prefix "--" (String c s)) eqn:P1.
    { destruct (spanLine_spec (String c s)) as [E L].
      destruct (spanLine (String c s)) as [a b] eqn:S. simpl in E, L.
      cbn [concatValues fold_right value]. fold (concatValues (tokenizeFuel fuel b)).
      cbn [spanLine] in S.
      destruct (Ascii.eqb c NL).
      - injection S as <- <-. rewrite IH by lia. reflexivity.
      - destruct (spanLine_spec s) as [E' L'].
        destruct (spanLine s) as [a' b']. injection S as <- <-. simpl in *.
        rewrite IH by lia. now rewrite <- E'. }
    destruct (prefix "/*" (String c s)) eqn:P2.
    { cbn [prefix] in P2. destruct (ascii_dec "/" c) as [<-|]; [|discriminate P2].
      destruct s as [|d s]; cbn [prefix] in P2; [discriminate P2|].
      destruct (ascii_dec "*" d) as [<-|]; [|discriminate P2].
      cbn [drop].
      destruct (spanBlock_spec s) as [E L].
      destruct (spanBlock s) as [a b]. simpl in *.
      rewrite IH by lia. now rewrite <- E. }
    assert (K : forall ty, concatValues (mkToken ty (one c) :: tokenizeFuel fuel s)
                           = String c s).
    { intros ty. simpl. rewrite IH by lia. reflexivity. }
    repeat (match goal with
            | |- context [if ?b then _ else _] => destruct b eqn:?
            end; [apply K|]).
    cbn [span]. unfold isWordChar at 1. rewrite W.
    match goal with H : isSpecial c = false |- _ => rewrite H end.
    cbn [negb andb].
    destruct (span_spec isWordChar s) as [E L].
    destruct (span isWordChar s) as [a b]. simpl in *.
    rewrite IH by lia. now rewrite <- E.
Qed.

(** The token values of the small tokenizer concatenate to the input. *)
Lemma tokenize_concat (s : string) : concatValues (tokenize s) = s.
Proof. unfold tokenize. apply tokenizeFuel_concat. lia. Qed.

End TokenizerFacts.

(** ** The string primitives on examples *)

Module StrExamples.

Example trimEnd_example : trimEnd ("a b " ++ nl ++ "  ") = "a b".
Proof. reflexivity. Qed.

Example trim_example : trim (nl ++ " a b " ++ nl) = "a b".
Proof. reflexivity. Qed.

Example split_example : split NL ("a" ++ nl ++ nl ++ "b" ++ nl) = ["a"; EmptyString; "b"; EmptyString].
Proof. reflexivity. Qed.

Example lastLine_example : lastLine ("a" ++ nl ++ "  bc") = "  bc".
Proof. reflexivity. Qed.

Example collapseWhitespace_example :
  collapseWhitespace ("GROUP  " ++ nl ++ " BY") = "GROUP BY".
Proof. reflexivity. Qed.

Example lineCommentText_example :
  lineCommentText ("-- a -- b" ++ nl) = "/* a -- b */".
Proof. reflexivity. Qed.

Example replaceNewlines_dollar :
  replaceNewlines (nl ++ "$$") ("a" ++ nl ++ "b") = "a" ++ nl ++ "$b" /\
  replaceNewlines (nl ++ "$&") ("a" ++ nl ++ "b") = "a" ++ nl ++ nl ++ "b" /\
  replaceNewlines (nl ++ "$`") ("a" ++ nl ++ "b") = "a" ++ nl ++ "ab" /\
  replaceNewlines (nl ++ "$'") ("a" ++ nl ++ "b") = "a" ++ nl ++ "bb" /\
  replaceNewlines (nl ++ "$1$") ("a" ++ nl ++ "b") = "a" ++ nl ++ "$1$b".
Proof. vm_compute. repeat split. Qed.

Example replaceNewlines_example :
  replaceNewlines (nl ++ "  ") ("/*" ++ nl ++ "*/") = "/*" ++ nl ++ "  */".
Proof. reflexivity. Qed.

Example matchesLIMIT_example :
  matchesLIMIT "limit" = true /\ matchesLIMIT "Limit" = true /\
  matchesLIMIT "LIMITS" = false /\ matchesLIMIT ",LIMIT" = false.
Proof. repeat split. Qed.

Example toUpperCase_example : toUpperCase "left Outer join" = "LEFT OUTER JOIN".
Proof. reflexivity. Qed.

End StrExamples.

(** ** The engine on the examples of the specification *)

Module Examples.

Import SpecModel Sample.

Example select_list :
  formatString "SELECT a, b FROM t"
  = "SELECT" ++ nl ++ "  a" ++ nl ++ "  ,b" ++ nl ++ "FROM" ++ nl ++ "  t".
Proof. vm_compute. reflexivity. Qed.

Example placeholder_bound :
  snd (format (formatter None (Some "1")) "SELECT * FROM t WHERE a = ?")
  = "SELECT" ++ nl ++ "  *" ++ nl ++ "FROM" ++ nl ++ "  t" ++ nl
    ++ "WHERE" ++ nl ++ "  a = 1".
Proof. vm_compute. reflexivity. Qed.

Example inline_block :
  formatString "SELECT COUNT(*)" = "SELECT" ++ nl ++ "  COUNT(*)".
Proof. vm_compute. reflexivity. Qed.

Example limit_comma :
  formatString "SELECT a FROM t LIMIT 10, 20"
  = "SELECT" ++ nl ++ "  a" ++ nl ++ "FROM" ++ nl ++ "  t" ++ nl
    ++ "LIMIT" ++ nl ++ "  10, 20".
Proof. vm_compute. reflexivity. Qed.

(** C4 at [a, ?] with the placeholder bound to 1.  The pending comma is
    prepended to the value of the placeholder token and cleared, but the
    text that is appended is the resolver's answer: the comma is not in the
    returned string. *)
Theorem pending_comma_lost_before_placeholder :
  let tokens := [word "a"; comma; ws; placeholder] in
  let r := getFormattedQueryFromTokens tokens (formatter None (Some "1")) in
  fst r = [word "a"; comma; ws; mkToken PLACEHOLDER ",?"] /\
  nextLinePrepend (fst (snd r)) = EmptyString /\
  snd (snd r) = "a" ++ nl ++ "1 " /\
  hasChar "," (snd (snd r)) = false.
Proof. vm_compute. repeat split. Qed.

(** C8 at [a; SELECT b].  The semicolon step leaves the buffer ending in
    two line feeds, and the new line that the following top-level keyword
    starts trims them away: no empty line separates the statements. *)
Theorem blank_line_after_semicolon_lost :
  let f := formatter None None in
  buffer [word "a"; semicolon] f = "a;" ++ nl ++ nl /\
  buffer [word "a"; semicolon; ws; SELECT; ws; word "b"] f
  = "a;" ++ nl ++ "SELECT" ++ nl ++ "  b " /\
  formatString "a; SELECT b" = "a;" ++ nl ++ "SELECT" ++ nl ++ "  b".
Proof. vm_compute. repeat split. Qed.

End Examples.

(** ** The step theorems at concrete tokens *)

(** [toplevel_keyword_step] on a keyword of two words with a space, a line
    feed and a tab between them, in a state whose counters are not zero. *)
Lemma toplevel_keyword_step_witness :
  let f := set_indentation (SpecModel.formatter None None)
             (mkIndentation "  " 1 1 1 2) in
  let token := mkToken RESERVED_TOPLEVEL ("GROUP " ++ nl ++ String TAB "BY") in
  let r := snd (callback [token] 0 token (f, "a ")) in
  type token = RESERVED_TOPLEVEL /\
  snd r = "a" ++ nl ++ "  " ++ "GROUP BY" ++ nl ++ "    " /\
  indentation (fst r) = mkIndentation "  " 1 1 0 0 /\
  previousReservedWord (fst r) = Some token.
Proof.
  cbv zeta. split; [reflexivity|].
  rewrite (proj1 (@toplevel_keyword_step SpecModel.inlineBlock SpecModel.params
                    [mkToken RESERVED_TOPLEVEL ("GROUP " ++ nl ++ String TAB "BY")] 0
                    (mkToken RESERVED_TOPLEVEL ("GROUP " ++ nl ++ String TAB "BY")) "a "
                    (set_indentation (SpecModel.formatter None None)
                       (mkIndentation "  " 1 1 1 2)) eq_refl)).
  vm_compute. repeat split.
Defined.

(** [max_character_check_step] with a maximum of five characters. *)
Lemma max_character_check_step_witness :
  let f := SpecModel.formatterMax 5 in
  let token := Sample.word "abc" in
  let r := snd (callback [token] 0 token (f, "select")) in
  (tokenAt [token] 0 = Some token /\ checksMaxCharacter (spliced f token) = true /\
   maxCharacterPerLine f <> 0 /\
   maxCharacterPerLine f < String.length (lastLine "select") + String.length "abc") /\
  indentation (fst r) = mkIndentation "  " 0 0 0 1 /\
  snd r = ("select" ++ nl ++ "  ") ++ "abc" ++ " ".
Proof.
  assert (H : let f := SpecModel.formatterMax 5 in
              maxCharacterPerLine f <> 0 /\
              maxCharacterPerLine f <
                String.length (lastLine "select") + String.length "abc")
    by (vm_compute; split; [discriminate | lia]).
  destruct H as [H1 H2].
  split; [repeat split; assumption|].
  destruct (proj1 (@max_character_check_step SpecModel.inlineBlock SpecModel.params
                     [Sample.word "abc"] 0 (Sample.word "abc") "select"
                     (SpecModel.formatterMax 5)
                     eq_refl eq_refl) H1 H2) as [E1 E2].
  split; [exact E1|].
  cbv zeta. rewrite E2, E1. vm_compute. reflexivity.
Defined.

(** [comma_in_stream] at the comma of [SELECT a FROM t LIMIT 10, 20], which
    stays on the line, and at the comma of [SELECT a, b], which starts a new
    line. *)
Lemma comma_in_stream_witness :
  let f := SpecModel.formatter None None in
  let LIMIT := mkToken RESERVED_TOPLEVEL "LIMIT" in
  let before := [Sample.SELECT; Sample.ws; Sample.word "a"; Sample.ws; Sample.FROM;
                 Sample.ws; Sample.word "t"; Sample.ws; LIMIT; Sample.ws;
                 Sample.word "10"] in
  let after := [Sample.ws; Sample.word "20"] in
  let before' := [Sample.SELECT; Sample.ws; Sample.word "a"] in
  let after' := [Sample.ws; Sample.word "b"] in
  let run n ts := snd (forEachFrom n 0 ts (f, EmptyString)) in
  (isComma Sample.comma = true /\
   nextLinePrepend (fst (run 11 (before ++ Sample.comma :: after)%list)) = EmptyString /\
   nextLinePrepend (fst (run 3 (before' ++ Sample.comma :: after')%list)) = EmptyString) /\
  (snd (run 12 (before ++ Sample.comma :: after)%list) =
     nl ++ "SELECT" ++ nl ++ "  a" ++ nl ++ "FROM" ++ nl ++ "  t" ++ nl ++ "LIMIT"
     ++ nl ++ "  10, " /\
   nextLinePrepend (fst (run 12 (before ++ Sample.comma :: after)%list)) = EmptyString) /\
  (snd (run 4 (before' ++ Sample.comma :: after')%list) =
     nl ++ "SELECT" ++ nl ++ "  a" ++ nl ++ "  " /\
   nextLinePrepend (fst (run 4 (before' ++ Sample.comma :: after')%list)) = ",").
Proof.
  cbv zeta.
  pose proof (@comma_in_stream SpecModel.inlineBlock SpecModel.params
                [Sample.SELECT; Sample.ws; Sample.word "a"; Sample.ws; Sample.FROM;
                 Sample.ws; Sample.word "t"; Sample.ws;
                 mkToken RESERVED_TOPLEVEL "LIMIT"; Sample.ws; Sample.word "10"]
                [Sample.ws; Sample.word "20"] Sample.comma
                (SpecModel.formatter None None) eq_refl) as T1.
  pose proof (@comma_in_stream SpecModel.inlineBlock SpecModel.params
                [Sample.SELECT; Sample.ws; Sample.word "a"]
                [Sample.ws; Sample.word "b"] Sample.comma
                (SpecModel.formatter None None) eq_refl) as T2.
  cbv zeta in T1, T2. cbn [List.length] in T1, T2.
  match type of T1 with ?A -> _ =>
    assert (H1 : A) by (vm_compute; reflexivity) end.
  match type of T2 with ?A -> _ =>
    assert (H2 : A) by (vm_compute; reflexivity) end.
  destruct (T1 H1) as (_ & A1 & _).
  destruct (T2 H2) as (_ & _ & B2).
  match type of A1 with ?A -> _ =>
    assert (L1 : A) by (right; vm_compute; reflexivity) end.
  match type of B2 with ?A -> ?B -> _ =>
    assert (L2 : A) by (vm_compute; reflexivity);
    assert (L3 : B) by (vm_compute; reflexivity) end.
  destruct (A1 L1) as [E1 E2]. destruct (B2 L2 L3) as [E3 E4].
  split; [split; [reflexivity | split; [exact H1 | exact H2]]|].
  split; split.
  - rewrite E1. vm_compute. reflexivity.
  - exact E2.
  - rewrite E3. vm_compute. reflexivity.
  - exact E4.
Defined.

(** * Further properties *)

(** ** Lines, prefixes and replacements *)

Module MoreLines.

Lemma trimEnd_allWhitespace (s : string) :
  allWhitespace s = true -> trimEnd s = EmptyString.
Proof.
  induction s as [|c s IH]; [reflexivity|]. simpl.
  intros H. apply andb_true_iff in H. destruct H as [Hc Hs].
  now rewrite (IH Hs), Hc.
Qed.

Lemma allWhitespace_append (a b : string) :
  allWhitespace (a ++ b) = allWhitespace a && allWhitespace b.
Proof.
  induction a as [|c a IH]; simpl; [reflexivity|]. now rewrite IH, andb_assoc.
Qed.

Lemma allWhitespace_repeat (s : string) (n : nat) :
  allWhitespace s = true -> allWhitespace (Str.repeat s n) = true.
Proof.
  intros H. induction n as [|n IH]; simpl; [reflexivity|].
  now rewrite allWhitespace_append, H, IH.
Qed.

Lemma split_no_newline (s : string) : hasNewline s = false -> split NL s = [s].
Proof.
  induction s as [|c s IH]; [reflexivity|]. simpl.
  intros H. apply orb_false_iff in H. destruct H as [Hc Hs].
  now rewrite Hc, (IH Hs).
Qed.

Lemma lastLine_cons (c : ascii) (s : string) :
  lastLine (String c s) =
  if hasNewline s then lastLine s
  else if Ascii.eqb c NL then s else String c s.
Proof.
  unfold lastLine. cbn [split].
  destruct (hasNewline s) eqn:H.
  - destruct (Ascii.eqb c NL).
    + cbn [last]. destruct (split NL s) eqn:E; [now apply split_nonempty in E | reflexivity].
    + destruct (split NL s) as [|l ls] eqn:E; [now apply split_nonempty in E|].
      destruct ls as [|l' ls].
      * exfalso. clear - E H. revert l E. induction s as [|d s IH]; intros l E.
        -- discriminate H.
        -- simpl in H, E. destruct (Ascii.eqb d NL) eqn:D.
           ++ destruct (split NL s) eqn:E'; [now apply split_nonempty in E' | discriminate E].
           ++ simpl in H. destruct (split NL s) as [|m ms] eqn:E';
                [now apply split_nonempty in E'|].
              injection E as _ ->. now apply (IH H m).
      * reflexivity.
  - rewrite (split_no_newline s H). destruct (Ascii.eqb c NL); reflexivity.
Qed.

Lemma lastLine_append_newline (a b : string) :
  hasNewline b = false -> lastLine (a ++ String NL b) = b.
Proof.
  intros Hb. induction a as [|c a IH]; cbn [append]; rewrite lastLine_cons.
  - rewrite Hb. reflexivity.
  - assert (H : hasNewline (a ++ String NL b) = true).
    { rewrite hasNewline_append. simpl. now rewrite orb_true_r. }
    now rewrite H.
Qed.

Lemma prefix_append (p x : string) : prefix p (p ++ x) = true.
Proof.
  induction p as [|c p IH]; [destruct x; reflexivity|].
  cbn [append prefix]. destruct (ascii_dec c c); [exact IH | contradiction].
Qed.

Lemma drop_append (p x : string) : drop (String.length p) (p ++ x) = x.
Proof. induction p as [|c p IH]; [destruct x; reflexivity | exact IH]. Qed.

Lemma replaceFirst_unfold (pat rep s : string) :
  replaceFirst pat rep s =
  if prefix pat s then rep ++ drop (String.length pat) s
  else match s with
       | EmptyString => EmptyString
       | String c s' => String c (replaceFirst pat rep s')
       end.
Proof. destruct s; reflexivity. Qed.

Lemma replaceFirst_prefix (pat rep x : string) :
  replaceFirst pat rep (pat ++ x) = rep ++ x.
Proof. now rewrite replaceFirst_unfold, prefix_append, drop_append. Qed.

Lemma prefix_nl (s : string) : prefix nl s = startsWithNL s.
Proof.
  destruct s as [|c s]; [reflexivity|]. unfold nl. cbn [prefix startsWithNL].
  destruct (ascii_dec NL c) as [<-|N].
  - now destruct s.
  - symmetry. apply Ascii.eqb_neq. congruence.
Qed.

(** Removing the first line feed of a text that ends in its only one. *)
Lemma replaceFirst_nl_end (x : string) :
  hasNewline x = false ->
  replaceFirst nl EmptyString (x ++ nl) = x /\
  replaceFirst nl EmptyString x = x.
Proof.
  induction x as [|c x IH]; [split; reflexivity|].
  cbn [hasNewline]. intros H. apply orb_false_iff in H. destruct H as [Hc Hx].
  destruct (IH Hx) as [IH1 IH2].
  split; cbn [append]; rewrite replaceFirst_unfold, prefix_nl; cbn [startsWithNL];
    rewrite Hc; congruence.
Qed.

Lemma split_prepend (ind r : string) :
  hasNewline ind = false ->
  split NL (ind ++ r) =
  match split NL r with
  | [] => []
  | h :: t => (ind ++ h) :: t
  end.
Proof.
  induction ind as [|d ind IH]; intros Hi.
  - simpl. destruct (split NL r) eqn:R; [now apply split_nonempty in R | reflexivity].
  - cbn [hasNewline] in Hi. apply orb_false_iff in Hi. destruct Hi as [Hd Hi].
    cbn [append split]. rewrite Hd, (IH Hi).
    destruct (split NL r) eqn:R; [now apply split_nonempty in R | reflexivity].
Qed.

Lemma substitution_plain (rep matched before after : string) :
  hasChar "$" rep = false -> substitution rep matched before after = rep.
Proof.
  induction rep as [|c r IH]; [reflexivity|].
  cbn [hasChar substitution]. intros H. apply orb_false_iff in H.
  destruct H as [Hc Hr]. rewrite Hc. now rewrite (IH Hr).
Qed.

Lemma hasChar_repeat (c : ascii) (s : string) (n : nat) :
  hasChar c s = false -> hasChar c (repeat s n) = false.
Proof.
  intros H. induction n as [|n IH]; [reflexivity|].
  cbn [repeat]. rewrite hasChar_append, H, IH. reflexivity.
Qed.

Lemma replaceNewlinesFrom_lines (ind s : string) :
  hasNewline ind = false ->
  hasChar "$" ind = false ->
  forall before,
  split NL (replaceNewlinesFrom (nl ++ ind) before s) =
  match split NL s with
  | [] => []
  | l :: ls => l :: map (append ind) ls
  end.
Proof.
  intros Hi Hd. induction s as [|c s IH]; intros before; [reflexivity|].
  cbn [replaceNewlinesFrom split]. destruct (Ascii.eqb c NL) eqn:E.
  - rewrite substitution_plain by exact Hd.
    change ((nl ++ ind) ++ replaceNewlinesFrom (nl ++ ind) (before ++ String c EmptyString) s)
      with (String NL (ind ++ replaceNewlinesFrom (nl ++ ind)
                                (before ++ String c EmptyString) s)).
    cbn [split]. change (Ascii.eqb NL NL) with true. cbn iota.
    rewrite (split_prepend _ _ Hi), IH.
    destruct (split NL s) as [|l ls] eqn:S; [now apply split_nonempty in S|].
    reflexivity.
  - cbn [split]. rewrite E, IH.
    destruct (split NL s) eqn:S; [now apply split_nonempty in S | reflexivity].
Qed.

Lemma replaceNewlines_lines (ind s : string) :
  hasNewline ind = false ->
  hasChar "$" ind = false ->
  split NL (replaceNewlines (nl ++ ind) s) =
  match split NL s with
  | [] => []
  | l :: ls => l :: map (append ind) ls
  end.
Proof. intros Hi Hd. apply replaceNewlinesFrom_lines; assumption. Qed.

End MoreLines.

Import MoreLines.

(** ** The formatter *)

Section More.

Context {IB : InlineBlockDetector} {PR : PlaceholderResolver}.

(** *** Whitespace tokens *)

Lemma run_whitespace_only (rest done : list Token) (st : Result) :
  forallb isWhitespaceToken rest = true ->
  run done rest st = ((done ++ rest)%list, st).
Proof.
  revert done. induction rest as [|t rest IH]; intros done H.
  - simpl. now rewrite app_nil_r.
  - cbn [forallb] in H. apply andb_true_iff in H. destruct H as [Ht H].
    rewrite (run_whitespace done rest t st Ht), (IH _ H), <- app_assoc. reflexivity.
Qed.

(** X1.  A token array that holds only whitespace tokens gives the empty
    string and leaves the array and the instance as they are. *)
Theorem whitespace_only_tokens (tokens : list Token) (f : Formatter) :
  forallb isWhitespaceToken tokens = true ->
  getFormattedQueryFromTokens tokens f = (tokens, (f, EmptyString)).
Proof.
  intros H. rewrite getFormattedQueryFromTokens_run.
  now rewrite (run_whitespace_only tokens [] _ H).
Qed.

(** [format] of a query that tokenizes to whitespace only. *)
Theorem format_whitespace_only (f : Formatter) (query : string) :
  forallb isWhitespaceToken (tokenizer f query) = true ->
  format f query = (f, EmptyString).
Proof.
  intros H. unfold format.
  now rewrite getFormattedQueryFromTokens_run, (run_whitespace_only _ [] _ H).
Qed.

Lemma run_content_gen (rest1 : list Token) :
  forall (rest2 done1 done2 : list Token) (st : Result),
    (existsb isOpenParenToken rest1 = true -> detectorIgnoresWhitespace) ->
    contentFrom (lastType done1) rest1 = contentFrom (lastType done2) rest2 ->
    snd (run done1 rest1 st) = snd (run done2 rest2 st).
Proof.
  induction rest1 as [|t r1 IH1]; intros rest2.
  - induction rest2 as [|u r2 IH2]; intros done1 done2 st Hd Hc; [reflexivity|].
    cbn [contentFrom] in Hc.
    destruct (isWhitespaceToken u) eqn:Eu; [|discriminate Hc].
    rewrite (run_whitespace done2 r2 u st Eu).
    apply IH2; [exact Hd|]. cbn [contentFrom].
    now rewrite lastType_snoc, (isWhitespaceToken_type u Eu).
  - intros done1 done2 st Hd Hc.
    assert (Hd' : existsb isOpenParenToken r1 = true -> detectorIgnoresWhitespace).
    { intros E. apply Hd. cbn [existsb]. now rewrite E, orb_true_r. }
    destruct (isWhitespaceToken t) eqn:Et.
    + rewrite (run_whitespace done1 r1 t st Et).
      apply IH1; [exact Hd'|]. cbn [contentFrom] in Hc. rewrite Et in Hc.
      now rewrite lastType_snoc, (isWhitespaceToken_type t Et).
    + revert done2 Hc.
      induction rest2 as [|u r2 IH2]; intros done2 Hc;
        cbn [contentFrom] in Hc; rewrite Et in Hc; [discriminate Hc|].
      destruct (isWhitespaceToken u) eqn:Eu.
      * rewrite (run_whitespace done2 r2 u st Eu).
        apply IH2. cbn [contentFrom]. rewrite Et.
        now rewrite lastType_snoc, (isWhitespaceToken_type u Eu).
      * injection Hc as Hflag Htok Htail. subst u.
        destruct st as [f q]. cbn [run fst snd].
        set (t' := spliced f t).
        assert (Hty : type t' = type t) by apply spliced_type.
        rewrite (dispatch_same (done1 ++ t' :: r1)%list (done2 ++ t' :: r2)%list
                   (List.length done1) (List.length done2) t' q (afterSplice f t)).
        -- apply IH1; [exact Hd'|]. now rewrite !lastType_snoc, Hty.
        -- now rewrite !valueAt_middle.
        -- intros Hop. rewrite Hty in Hop.
           assert (D : detectorIgnoresWhitespace).
           { apply Hd. cbn [existsb]. unfold isOpenParenToken at 1. now rewrite Hop. }
           rewrite Hop in Hflag. cbn in Hflag.
           rewrite !previousTokenAt_middle. split; [exact Hflag|].
           apply (D _ _ _ _ t').
           ++ apply tokenAt_middle.
           ++ apply tokenAt_middle.
           ++ now rewrite Hty.
           ++ rewrite !skipn_middle.
              rewrite <- (contentFrom_filter (Some (type t)) r1),
                      <- (contentFrom_filter (Some (type t)) r2).
              now rewrite Htail.
Qed.

(** X2.  Two token arrays with the same tokens, whitespace tokens aside, and
    the same opening parentheses glued to the token before them give the
    same string and leave the instance in the same state; where an opening
    parenthesis occurs, the detector has to make nothing of whitespace
    tokens. *)
Theorem layout_depends_on_content (tokens1 tokens2 : list Token) (f : Formatter) :
  (existsb isOpenParenToken tokens1 = true -> detectorIgnoresWhitespace) ->
  content tokens1 = content tokens2 ->
  snd (getFormattedQueryFromTokens tokens1 f) =
  snd (getFormattedQueryFromTokens tokens2 f).
Proof.
  intros Hd Hc. rewrite !getFormattedQueryFromTokens_run.
  now apply run_content_gen.
Qed.

(** *** [equalizeWhitespace] *)

(** X13.  Collapsing whitespace twice is collapsing it once. *)
Theorem equalizeWhitespace_idempotent (s : string) :
  equalizeWhitespace (equalizeWhitespace s) = equalizeWhitespace s.
Proof. apply collapseWhitespace_idempotent. Qed.

(** X14.  [equalizeWhitespace] keeps the characters that are not whitespace,
    in order, and leaves no whitespace but single spaces. *)
Theorem equalizeWhitespace_shape (s : string) :
  nonWhitespace (equalizeWhitespace s) = nonWhitespace s /\
  singleSpaced (equalizeWhitespace s) = true.
Proof.
  split; [apply nonWhitespace_collapse | apply singleSpaced_collapse].
Qed.

(** *** [addNewline] *)

(** X15.  With an indent unit of whitespace, a new line started right after
    a new line replaces it: no empty line comes from [addNewline] alone. *)
Theorem addNewline_collapses (f g : Formatter) (query : string) :
  allWhitespace (indent (indentation g)) = true ->
  addNewline f (addNewline g query) = addNewline f query.
Proof.
  intros H. unfold addNewline. f_equal.
  rewrite trimEnd_append_ws; [apply trimEnd_idempotent|].
  apply trimEnd_allWhitespace. rewrite allWhitespace_append. simpl.
  now apply allWhitespace_repeat.
Qed.

(** X16.  After [addNewline] the last line of the buffer is the indentation,
    when the indent unit holds no line feed. *)
Theorem addNewline_lastLine (f : Formatter) (query : string) :
  hasNewline (indent (indentation f)) = false ->
  lastLine (addNewline f query) = getIndent (indentation f).
Proof.
  intros H. unfold addNewline. apply lastLine_append_newline.
  now apply hasNewline_getIndent.
Qed.

(** X9.  After the check at a token of the array, with a maximum that is
    not zero, either the buffer is unchanged and the token fits behind its
    last line, or the last line of the buffer is the bare indentation, one
    level deeper than before. *)
Theorem checkMaxCharacter_fits_or_wraps (tokens : list Token) (index : nat)
    (token : Token) (query : string) (f : Formatter) :
  tokenAt tokens index = Some token ->
  maxCharacterPerLine f <> 0 ->
  hasNewline (indent (indentation f)) = false ->
  let r := checkMaxCharacter tokens index query f in
  (snd r = query /\
   String.length (lastLine (snd r)) + String.length (value token)
     <= maxCharacterPerLine f)
  \/ (lastLine (snd r) = getIndent (indentation (fst r)) /\
      levels (indentation (fst r)) = S (levels (indentation f))).
Proof.
  intros Hat Hm Hi r. unfold r, checkMaxCharacter, valueAt. rewrite Hat.
  apply Nat.eqb_neq in Hm. rewrite Hm. cbn [negb andb].
  destruct (Nat.ltb _ _) eqn:E.
  - right. cbn [fst snd]. split.
    + unfold addNewline. apply lastLine_append_newline.
      now apply hasNewline_getIndent.
    + unfold levels. simpl. lia.
  - left. cbn [snd]. split; [reflexivity|]. apply Nat.ltb_ge in E. exact E.
Qed.

(** *** Comments *)

(** X17.  A line comment of two dashes, a body without line feed and at
    most one closing line feed becomes the body between the block comment
    delimiters. *)
Theorem lineCommentText_shape (body : string) :
  hasNewline body = false ->
  lineCommentText ("--" ++ body ++ nl) = "/*" ++ body ++ " */" /\
  lineCommentText ("--" ++ body) = "/*" ++ body ++ " */".
Proof.
  intros H. unfold lineCommentText.
  rewrite !replaceFirst_prefix.
  assert (H' : hasNewline ("/*" ++ body) = false) by exact H.
  destruct (replaceFirst_nl_end ("/*" ++ body) H') as [E1 E2].
  rewrite <- append_assoc, E1, E2, append_assoc. split; reflexivity.
Qed.

(** X19.  [indentComment] keeps the first line of a comment and puts the
    current indentation in front of every other line, when the indent unit
    holds no line feed and no dollar sign. *)
Theorem indentComment_lines (f : Formatter) (comment : string) :
  hasNewline (indent (indentation f)) = false ->
  hasChar "$" (indent (indentation f)) = false ->
  split NL (indentComment f comment) =
  match split NL comment with
  | [] => []
  | l :: ls => l :: map (append (getIndent (indentation f))) ls
  end.
Proof.
  intros H Hd. unfold indentComment. apply replaceNewlines_lines.
  - now apply hasNewline_getIndent.
  - now apply hasChar_repeat.
Qed.

(** *** The overflow counter *)

Lemma afterSplice_maxCharacterPerLine (f : Formatter) (token : Token) :
  maxCharacterPerLine (afterSplice f token) = maxCharacterPerLine f.
Proof. unfold afterSplice. destruct (splices f token); reflexivity. Qed.

Lemma callback_overflow_zero (tokens : list Token) (index : nat) (token : Token)
    (f : Formatter) (q : string) :
  maxCharacterPerLine f = 0 /\ maxCharacterLevel (indentation f) = 0 ->
  let f' := fst (snd (callback tokens index token (f, q))) in
  maxCharacterPerLine f' = 0 /\ maxCharacterLevel (indentation f') = 0.
Proof.
  intros [Hm Hl].
  assert (Hm0 : maxCharacterPerLine (afterSplice f token) = 0)
    by now rewrite afterSplice_maxCharacterPerLine.
  assert (Hl0 : maxCharacterLevel (indentation (afterSplice f token)) = 0)
    by now rewrite afterSplice_indentation.
  unfold_step. rewrite Hm0. cbn [Nat.eqb negb andb].
  set (f0 := afterSplice f token) in *. clearbody f0.
  destruct (type (spliced f token)); simpl; break_ifs; simpl; auto.
Qed.

(** X8.  With a maximum line length of zero the overflow counter stays at
    zero through the whole call. *)
Theorem overflow_stays_zero (tokens : list Token) (f : Formatter) :
  maxCharacterPerLine f = 0 ->
  maxCharacterLevel (indentation f) = 0 ->
  maxCharacterLevel
    (indentation (fst (snd (getFormattedQueryFromTokens tokens f)))) = 0.
Proof.
  intros Hm Hl. unfold getFormattedQueryFromTokens.
  apply (forEachFrom_invariant
           (fun f => maxCharacterPerLine f = 0 /\ maxCharacterLevel (indentation f) = 0)).
  - intros. now apply callback_overflow_zero.
  - split; assumption.
Qed.

(** *** What [format] leaves alone *)

(** X12.  [format] changes neither the configuration, the parameters, the
    tokenizer, the maximum line length nor the indent unit of the
    instance. *)
Theorem format_keeps_setup (f : Formatter) (query : string) :
  sameSetup f (fst (format f query)).
Proof. rewrite format_run. apply (run_sameSetup _ [] (f, EmptyString)). Qed.

(** *** The previous reserved word *)

Lemma run_previousReservedWord (rest done : list Token) (st : Result) :
  exists rest',
    fst (run done rest st) = (done ++ rest')%list /\
    previousReservedWord (fst (snd (run done rest st))) =
    lastReservedOr (previousReservedWord (fst st)) rest'.
Proof.
  revert done st. induction rest as [|token rest IH]; intros done st.
  - exists []. simpl. now rewrite app_nil_r.
  - cbn [run].
    destruct (IH (done ++ [spliced (fst st) token])%list
                (dispatch (done ++ spliced (fst st) token :: rest)%list
                   (List.length done) (spliced (fst st) token) (snd st)
                   (afterSplice (fst st) token))) as [rest' [E P]].
    exists (spliced (fst st) token :: rest'). split.
    + rewrite E, <- app_assoc. reflexivity.
    + rewrite P, dispatch_previousReservedWord, afterSplice_previousReservedWord.
      reflexivity.
Qed.

(** X6.  After the call the previous reserved word is the last token of a
    reserved kind in the array as the call left it, and the one from before
    the call when the array holds none. *)
Theorem previousReservedWord_after_call (tokens : list Token) (f : Formatter) :
  let r := getFormattedQueryFromTokens tokens f in
  previousReservedWord (fst (snd r)) =
  lastReservedOr (previousReservedWord f) (fst r).
Proof.
  cbv zeta. rewrite getFormattedQueryFromTokens_run.
  destruct (run_previousReservedWord tokens [] (f, EmptyString)) as [rest' [E P]].
  rewrite P, E. reflexivity.
Qed.

(** *** Token sequences without a comma *)

Lemma dispatch_nextLinePrepend (tokens : list Token) (index : nat) (token : Token)
    (q : string) (f : Formatter) :
  isComma token = false ->
  nextLinePrepend (fst (dispatch tokens index token q f)) = nextLinePrepend f.
Proof.
  unfold isComma. intros H. unfold_step.
  destruct (type token); simpl; try rewrite H; break_ifs; reflexivity.
Qed.

Lemma run_no_comma (rest done : list Token) (st : Result) :
  nextLinePrepend (fst st) = EmptyString ->
  forallb (fun t => negb (isComma t)) rest = true ->
  fst (run done rest st) = (done ++ rest)%list /\
  nextLinePrepend (fst (snd (run done rest st))) = EmptyString.
Proof.
  revert done st. induction rest as [|token rest IH]; intros done [f q] Hp Hc;
    cbn [fst snd] in *.
  - simpl. now rewrite app_nil_r.
  - cbn [forallb] in Hc. apply andb_true_iff in Hc. destruct Hc as [Ht Hc].
    apply negb_true_iff in Ht.
    assert (E1 : spliced f token = token)
      by (unfold spliced, splices; now rewrite Hp).
    assert (E2 : afterSplice f token = f)
      by (unfold afterSplice, splices; now rewrite Hp).
    cbn [run fst snd]. rewrite E1, E2.
    destruct (IH (done ++ [token])%list
                (dispatch (done ++ token :: rest)%list (List.length done) token q f))
      as [E P].
    + now rewrite dispatch_nextLinePrepend.
    + exact Hc.
    + split; [|exact P]. rewrite E, <- app_assoc. reflexivity.
Qed.

(** X3.  With no prefix pending and no comma token in the array, the call
    changes no token and leaves no prefix pending. *)
Theorem tokens_unchanged_without_comma (tokens : list Token) (f : Formatter) :
  nextLinePrepend f = EmptyString ->
  forallb (fun t => negb (isComma t)) tokens = true ->
  let r := getFormattedQueryFromTokens tokens f in
  fst r = tokens /\ nextLinePrepend (fst (snd r)) = EmptyString.
Proof.
  intros Hp Hc. cbv zeta. rewrite getFormattedQueryFromTokens_run.
  apply (run_no_comma tokens [] (f, EmptyString) Hp Hc).
Qed.

(** *** Punctuation behind a token *)

Lemma trimEnd_spaced (q v : string) :
  solidText v = true -> trimEnd (q ++ v ++ " ") = q ++ v.
Proof.
  unfold solidText. intros H. apply andb_true_iff in H. destruct H as [Hn Hw].
  apply negb_true_iff in Hn, Hw.
  assert (E : trimEnd (v ++ " ") = v).
  { rewrite trimEnd_append_ws by reflexivity. now apply trimEnd_fixed. }
  rewrite trimEnd_append, E, Hn. reflexivity.
Qed.

(** X20.  Punctuation emitted by [formatWithoutSpaces] or
    [formatWithSpaceAfter] right after a token emitted by
    [formatWithSpaces] takes back the space behind that token. *)
Theorem punctuation_takes_back_space (s t : Token) (query : string) :
  solidText (value s) = true ->
  formatWithoutSpaces t (formatWithSpaces s query) = query ++ value s ++ value t /\
  formatWithSpaceAfter t (formatWithSpaces s query)
  = query ++ value s ++ value t ++ " ".
Proof.
  intros H. unfold formatWithoutSpaces, formatWithSpaceAfter, formatWithSpaces.
  rewrite (trimEnd_spaced _ _ H), !append_assoc. split; reflexivity.
Qed.

(** *** Plain tokens *)

Lemma dispatch_plain (tokens : list Token) (index : nat) (token : Token)
    (q : string) (f : Formatter) :
  checksMaxCharacter token = true ->
  maxCharacterPerLine f = 0 ->
  snd (dispatch tokens index token q f) = q ++ value token ++ " " /\
  maxCharacterPerLine (fst (dispatch tokens index token q f)) = 0 /\
  nextLinePrepend (fst (dispatch tokens index token q f)) = nextLinePrepend f.
Proof.
  unfold checksMaxCharacter, isPlainValue. intros Hc Hm.
  unfold dispatch, formatByValue, checkMaxCharacter, formatWithSpaces.
  rewrite Hm. cbn [Nat.eqb negb andb].
  destruct (type token); try discriminate Hc; [repeat split; exact Hm | |];
    apply negb_true_iff in Hc;
    repeat (apply orb_false_iff in Hc; destruct Hc as [Hc ?]);
    rewrite Hc; repeat match goal with H : _ = false |- _ => rewrite H end;
    repeat split; exact Hm.
Qed.

Lemma run_plain (rest done : list Token) (st : Result) :
  maxCharacterPerLine (fst st) = 0 ->
  nextLinePrepend (fst st) = EmptyString ->
  forallb isPlainToken rest = true ->
  snd (snd (run done rest st)) = snd st ++ spaced rest.
Proof.
  revert done st. induction rest as [|token rest IH]; intros done [f q] Hm Hp Hr;
    cbn [fst snd] in *.
  - simpl. now rewrite append_nil_r.
  - cbn [forallb] in Hr. apply andb_true_iff in Hr. destruct Hr as [Ht Hr].
    cbn [spaced]. destruct (isWhitespaceToken token) eqn:Ew.
    + rewrite (run_whitespace done rest token (f, q) Ew). now apply IH.
    + unfold isPlainToken in Ht. rewrite Ew in Ht. cbn [orb] in Ht.
      assert (E1 : spliced f token = token)
        by (unfold spliced, splices; now rewrite Hp).
      assert (E2 : afterSplice f token = f)
        by (unfold afterSplice, splices; now rewrite Hp).
      cbn [run fst snd]. rewrite E1, E2.
      destruct (dispatch_plain (done ++ token :: rest)%list (List.length done)
                  token q f Ht Hm) as (Eq & Em & En).
      destruct (dispatch _ _ token q f) as [f' q'] eqn:Ed. cbn [fst snd] in *.
      rewrite (IH (done ++ [token])%list (f', q')); cbn [fst snd].
      * rewrite Eq, !append_assoc. reflexivity.
      * exact Em.
      * now rewrite En.
      * exact Hr.
Qed.

(** X7.  Without a maximum line length and with no prefix pending, an array
    of whitespace, other reserved keywords and tokens of the last branch
    gives the values of the tokens that are not whitespace, each followed
    by one space, on one line. *)
Theorem plain_tokens_spaced (tokens : list Token) (f : Formatter) :
  maxCharacterPerLine f = 0 ->
  nextLinePrepend f = EmptyString ->
  forallb isPlainToken tokens = true ->
  snd (snd (getFormattedQueryFromTokens tokens f)) = spaced tokens.
Proof.
  intros Hm Hp Hr. rewrite getFormattedQueryFromTokens_run.
  now rewrite (run_plain tokens [] (f, EmptyString) Hm Hp Hr).
Qed.

(** *** Invariants of the loop *)

(** A property of [this] that the steps on the tokens allowed by [ok] keep
    holds after the loop over such tokens. *)
Lemma run_invariant (P : Formatter -> Prop) (ok : tokenType -> bool) :
  (forall tokens index token q f,
      ok (type token) = true -> P f -> P (fst (dispatch tokens index token q f))) ->
  (forall f token, P f -> P (afterSplice f token)) ->
  forall rest done st,
    forallb (fun t => ok (type t)) rest = true ->
    P (fst st) -> P (fst (snd (run done rest st))).
Proof.
  intros Hd Hs rest. induction rest as [|token rest IH]; intros done st Hok HP.
  - exact HP.
  - cbn [forallb] in Hok. apply andb_true_iff in Hok. destruct Hok as [Ht Hok].
    cbn [run]. apply IH; [exact Hok|].
    apply Hd; [now rewrite spliced_type | now apply Hs].
Qed.

(** X5.  When the call begins with no prefix pending, the prefix pending at
    its end is empty or a comma. *)
Theorem pending_empty_or_comma (tokens : list Token) (f : Formatter) :
  nextLinePrepend f = EmptyString ->
  let f' := fst (snd (getFormattedQueryFromTokens tokens f)) in
  nextLinePrepend f' = EmptyString \/ nextLinePrepend f' = ",".
Proof.
  intros Hp. cbv zeta. rewrite getFormattedQueryFromTokens_run.
  assert (H : pendingIn EmptyString (fst (snd (run [] tokens (f, EmptyString))))).
  { apply (run_invariant (pendingIn EmptyString) (fun _ => true)).
    - intros. now apply dispatch_pendingIn.
    - intros. now apply afterSplice_pendingIn.
    - clear. induction tokens; [reflexivity | assumption].
    - left. exact Hp. }
  destruct H as [H | [H | H]]; auto.
Qed.

Lemma afterSplice_trivia (f : Formatter) (token : Token) :
  isTrivia (type token) = true -> afterSplice f token = f.
Proof.
  intros H. unfold afterSplice, splices. rewrite H. now rewrite andb_false_r.
Qed.

Lemma run_trivia (rest done : list Token) (st : Result) :
  forallb (fun t => isTrivia (type t)) rest = true ->
  fst (run done rest st) = (done ++ rest)%list /\
  nextLinePrepend (fst (snd (run done rest st))) = nextLinePrepend (fst st).
Proof.
  revert done st. induction rest as [|token rest IH]; intros done [f q] H;
    cbn [fst snd] in *.
  - simpl. now rewrite app_nil_r.
  - cbn [forallb] in H. apply andb_true_iff in H. destruct H as [Ht H].
    assert (E1 : spliced f token = token)
      by (unfold spliced, splices; rewrite Ht; now rewrite andb_false_r).
    cbn [run fst snd]. rewrite E1, (afterSplice_trivia f token Ht).
    destruct (IH (done ++ [token])%list
                (dispatch (done ++ token :: rest)%list (List.length done) token q f) H)
      as [E P].
    split; [rewrite E, <- app_assoc; reflexivity|].
    rewrite P. apply dispatch_nextLinePrepend.
    unfold isComma. destruct (type token); try discriminate Ht; reflexivity.
Qed.

(** X4.  Whitespace and comment tokens are never changed and never take the
    pending prefix: it is pending after them as before. *)
Theorem trivia_keep_pending (tokens : list Token) (f : Formatter) :
  forallb (fun t => isTrivia (type t)) tokens = true ->
  let r := getFormattedQueryFromTokens tokens f in
  fst r = tokens /\ nextLinePrepend (fst (snd r)) = nextLinePrepend f.
Proof.
  intros H. cbv zeta. rewrite getFormattedQueryFromTokens_run.
  apply (run_trivia tokens [] (f, EmptyString) H).
Qed.

(** X10.  A call on an array without parentheses leaves the inline-block
    detector and the block counter as they were. *)
Theorem no_parentheses_frame (tokens : list Token) (f : Formatter) :
  forallb (fun t => negb (isParenType (type t))) tokens = true ->
  let f' := fst (snd (getFormattedQueryFromTokens tokens f)) in
  inlineBlock f' = inlineBlock f /\
  blockLevel (indentation f') = blockLevel (indentation f).
Proof.
  intros H. cbv zeta. rewrite getFormattedQueryFromTokens_run.
  apply (run_invariant
           (fun g => inlineBlock g = inlineBlock f /\
                     blockLevel (indentation g) = blockLevel (indentation f))
           (fun ty => negb (isParenType ty))).
  - intros tokens0 index token q g Hok [Hb Hl]. unfold_step.
    destruct (type token); try discriminate Hok; simpl; break_ifs; simpl; auto.
  - intros g token Hg. unfold afterSplice. destruct (splices g token); exact Hg.
  - exact H.
  - split; reflexivity.
Qed.

(** X11.  A call on an array without top-level keywords leaves the toplevel
    counter as it was. *)
Theorem no_toplevel_frame (tokens : list Token) (f : Formatter) :
  forallb (fun t => negb (tokenType_eqb (type t) RESERVED_TOPLEVEL)) tokens = true ->
  topLevel (indentation (fst (snd (getFormattedQueryFromTokens tokens f))))
  = topLevel (indentation f).
Proof.
  intros H. rewrite getFormattedQueryFromTokens_run.
  apply (run_invariant
           (fun g => topLevel (indentation g) = topLevel (indentation f))
           (fun ty => negb (tokenType_eqb ty RESERVED_TOPLEVEL))).
  - intros tokens0 index token q g Hok Hg. unfold_step.
    destruct (type token); try discriminate Hok; simpl; break_ifs; simpl; auto.
  - intros g token Hg. unfold afterSplice. destruct (splices g token); exact Hg.
  - exact H.
  - reflexivity.
Qed.

(** *** A line comment on the current line *)



End More.

(** ** The further properties at concrete inputs *)

Module MoreWitnesses.

Import Sample MoreSample.

Lemma whitespace_only_tokens_witness :
  forallb isWhitespaceToken [ws; ws] = true /\
  getFormattedQueryFromTokens [ws; ws] fresh = ([ws; ws], (fresh, EmptyString)).
Proof.
  split; [reflexivity|].
  exact (whitespace_only_tokens [ws; ws] fresh eq_refl).
Defined.

Lemma layout_depends_on_content_witness :
  let tokens1 := SpecModel.tokenize "SELECT a,  COUNT(*)" in
  let tokens2 := SpecModel.tokenize "SELECT a,COUNT(*)" in
  content tokens1 = content tokens2 /\
  snd (getFormattedQueryFromTokens tokens1 fresh) =
  snd (getFormattedQueryFromTokens tokens2 fresh).
Proof.
  assert (H : content (SpecModel.tokenize "SELECT a,  COUNT(*)")
              = content (SpecModel.tokenize "SELECT a,COUNT(*)"))
    by (vm_compute; reflexivity).
  split; [exact H|].
  exact (layout_depends_on_content _ _ fresh
           (fun _ => specModel_ignores_whitespace) H).
Defined.

Lemma addNewline_collapses_witness :
  allWhitespace (indent (indentation fresh)) = true /\
  addNewline fresh (addNewline fresh "a ") = addNewline fresh "a ".
Proof.
  split; [reflexivity|].
  exact (addNewline_collapses fresh fresh "a " eq_refl).
Defined.

Lemma addNewline_lastLine_witness :
  hasNewline (indent (indentation fresh)) = false /\
  lastLine (addNewline fresh "a ") = getIndent (indentation fresh).
Proof.
  split; [reflexivity|].
  exact (addNewline_lastLine fresh "a " eq_refl).
Defined.

Lemma checkMaxCharacter_fits_or_wraps_witness :
  let f := SpecModel.formatterMax 5 in
  let tokens := [SELECT; word "abc"] in
  let r := checkMaxCharacter tokens 1 "select" f in
  (tokenAt tokens 1 = Some (word "abc") /\
   maxCharacterPerLine f <> 0 /\ hasNewline (indent (indentation f)) = false) /\
  ((snd r = "select" /\
    String.length (lastLine (snd r)) + String.length (value (word "abc"))
      <= maxCharacterPerLine f)
   \/ (lastLine (snd r) = getIndent (indentation (fst r)) /\
       levels (indentation (fst r)) = S (levels (indentation f)))).
Proof.
  assert (H : maxCharacterPerLine (SpecModel.formatterMax 5) <> 0)
    by (vm_compute; discriminate).
  split; [split; [reflexivity | split; [exact H | reflexivity]]|].
  exact (checkMaxCharacter_fits_or_wraps [SELECT; word "abc"] 1 (word "abc") "select"
           (SpecModel.formatterMax 5) eq_refl H eq_refl).
Defined.

Lemma lineCommentText_shape_witness :
  hasNewline " a" = false /\
  lineCommentText ("--" ++ " a" ++ nl) = "/*" ++ " a" ++ " */" /\
  lineCommentText ("--" ++ " a") = "/*" ++ " a" ++ " */".
Proof.
  split; [reflexivity|].
  exact (lineCommentText_shape " a" eq_refl).
Defined.

Lemma indentComment_lines_witness :
  let comment := "/*" ++ nl ++ " * a" ++ nl ++ " */" in
  let f := set_indentation fresh (mkIndentation "  " 1 1 0 0) in
  (hasNewline (indent (indentation f)) = false /\
   hasChar "$" (indent (indentation f)) = false) /\
  split NL (indentComment f comment) = ["/*"; "     * a"; "     */"].
Proof.
  split; [split; reflexivity|].
  rewrite (indentComment_lines
             (set_indentation fresh (mkIndentation "  " 1 1 0 0))
             ("/*" ++ nl ++ " * a" ++ nl ++ " */") eq_refl eq_refl).
  vm_compute. reflexivity.
Defined.

Lemma overflow_stays_zero_witness :
  let tokens := [SELECT; ws; word "a"] in
  (maxCharacterPerLine fresh = 0 /\ maxCharacterLevel (indentation fresh) = 0) /\
  maxCharacterLevel
    (indentation (fst (snd (getFormattedQueryFromTokens tokens fresh)))) = 0.
Proof.
  split; [split; reflexivity|].
  exact (overflow_stays_zero [SELECT; ws; word "a"] fresh eq_refl eq_refl).
Defined.

Lemma tokens_unchanged_without_comma_witness :
  let tokens := [SELECT; ws; word "a"] in
  let r := getFormattedQueryFromTokens tokens fresh in
  (nextLinePrepend fresh = EmptyString /\
   forallb (fun t => negb (isComma t)) tokens = true) /\
  fst r = tokens /\ nextLinePrepend (fst (snd r)) = EmptyString.
Proof.
  split; [split; reflexivity|].
  exact (tokens_unchanged_without_comma [SELECT; ws; word "a"] fresh eq_refl eq_refl).
Defined.

Lemma punctuation_takes_back_space_witness :
  let s := word "a" in
  let t := mkToken PUNCTUATION "." in
  solidText (value s) = true /\
  formatWithoutSpaces t (formatWithSpaces s "x ") = "x " ++ value s ++ value t /\
  formatWithSpaceAfter t (formatWithSpaces s "x ") = "x " ++ value s ++ value t ++ " ".
Proof.
  split; [reflexivity|].
  exact (punctuation_takes_back_space (word "a") (mkToken PUNCTUATION ".") "x " eq_refl).
Defined.

Lemma plain_tokens_spaced_witness :
  let tokens := [word "a"; ws; mkToken RESERVED "AS"; ws; word "b"] in
  (maxCharacterPerLine fresh = 0 /\ nextLinePrepend fresh = EmptyString /\
   forallb isPlainToken tokens = true) /\
  snd (snd (getFormattedQueryFromTokens tokens fresh)) = spaced tokens.
Proof.
  split; [repeat split|].
  exact (plain_tokens_spaced [word "a"; ws; mkToken RESERVED "AS"; ws; word "b"] fresh
           eq_refl eq_refl eq_refl).
Defined.

Lemma pending_empty_or_comma_witness :
  let f' := fst (snd (getFormattedQueryFromTokens [word "a"; comma] fresh)) in
  nextLinePrepend fresh = EmptyString /\
  (nextLinePrepend f' = EmptyString \/ nextLinePrepend f' = ",").
Proof.
  split; [reflexivity|].
  exact (pending_empty_or_comma [word "a"; comma] fresh eq_refl).
Defined.

Lemma trivia_keep_pending_witness :
  let tokens := [ws; mkToken LINE_COMMENT "-- a"] in
  let r := getFormattedQueryFromTokens tokens fresh in
  forallb (fun t => isTrivia (type t)) tokens = true /\
  fst r = tokens /\ nextLinePrepend (fst (snd r)) = nextLinePrepend fresh.
Proof.
  split; [reflexivity|].
  exact (trivia_keep_pending [ws; mkToken LINE_COMMENT "-- a"] fresh eq_refl).
Defined.

Lemma no_parentheses_frame_witness :
  let tokens := [SELECT; ws; word "a"] in
  let f' := fst (snd (getFormattedQueryFromTokens tokens fresh)) in
  forallb (fun t => negb (isParenType (type t))) tokens = true /\
  inlineBlock f' = inlineBlock fresh /\
  blockLevel (indentation f') = blockLevel (indentation fresh).
Proof.
  split; [reflexivity|].
  exact (no_parentheses_frame [SELECT; ws; word "a"] fresh eq_refl).
Defined.

Lemma no_toplevel_frame_witness :
  let tokens := [word "a"; ws; mkToken OPEN_PAREN "("] in
  forallb (fun t => negb (tokenType_eqb (type t) RESERVED_TOPLEVEL)) tokens = true /\
  topLevel (indentation (fst (snd (getFormattedQueryFromTokens tokens fresh))))
  = topLevel (indentation fresh).
Proof.
  split; [reflexivity|].
  exact (no_toplevel_frame [word "a"; ws; mkToken OPEN_PAREN "("] fresh eq_refl).
Defined.

End MoreWitnesses.
